(** * spotiflood: the sonification mapping engine of [app/app.py]

    The development embeds three pieces of [app.py]:
    - [freqMap] (lines 206-215), the scale quantizer, together with the
      parts of numpy and pandas it calls ([Series.min], [Series.max],
      [np.log], [np.linspace], [np.digitize]);
    - [make_track] (lines 217-224), the run encoder;
    - the note loop of [generate_midi] (lines 654-664), the voice assembler.

    Numbers.  The flow samples and the times of the notes are binary64
    values.  The quantizer is embedded twice.
    - Over [F64.t]: the three special values of IEEE 754 that the code can
      produce ([nan], [-inf], [+inf]) and the finite values idealised as
      real numbers (no rounding, no overflow, one zero).  This embedding
      carries the statements that rounding cannot change: which exception
      is raised, which parameters are read, what a constant series and a
      few given series come out as.
    - Over [PrimFloat.float] (module [B64]): the binary64 numbers
      themselves, with the rounding, the overflow and the signed zeros of
      IEEE 754.  [np.log] is a parameter of this embedding.  It carries the
      statements that depend on how the edges of the bins are rounded.
    The times of the voice assembler are binary64 numbers as well. *)

From Stdlib Require Import List Sorted Permutation ZArith Reals Lra Lia Bool.
From Stdlib Require String Floats Uint63.
Import ListNotations.

Close Scope R_scope.
Open Scope nat_scope.

Set Implicit Arguments.

(** ** Python results: a value or a raised exception *)

Inductive exn : Type := ValueError | IndexError.

Inductive result (A : Type) : Type :=
| Ok (a : A)
| Raise (e : exn).

Arguments Ok {A} a.
Arguments Raise {A} e.

Definition bind {A B : Type} (m : result A) (k : A -> result B) : result B :=
  match m with
  | Ok a => k a
  | Raise e => Raise e
  end.

Notation "x <- m ;; k" := (bind m (fun x => k))
  (at level 61, m at next level, right associativity).

(** A list comprehension whose body may raise: the first exception wins. *)
Fixpoint mapM {A B : Type} (f : A -> result B) (l : list A) : result (list B) :=
  match l with
  | [] => Ok []
  | x :: rest => y <- f x ;; ys <- mapM f rest ;; Ok (y :: ys)
  end.

(** [seq[i]] on a Python list: a negative index counts from the end, an
    index out of range raises [IndexError]. *)
Definition getitem {A : Type} (l : list A) (i : Z) : result A :=
  let n := Z.of_nat (length l) in
  let j := if (i <? 0)%Z then (n + i)%Z else i in
  if ((j <? 0) || (n <=? j))%Z then Raise IndexError
  else match nth_error l (Z.to_nat j) with
       | Some a => Ok a
       | None => Raise IndexError
       end.

(** ** Comparisons of real numbers as booleans *)

Definition Rltb (x y : R) : bool := if Rlt_dec x y then true else false.
Definition Reqb (x y : R) : bool := if Req_dec_T x y then true else false.

(** ** binary64 values *)

Module F64.

Inductive t : Type :=
| NaN
| NInf
| PInf
| Fin (r : R).

Definition of_Z (z : Z) : t := Fin (IZR z).
Definition of_nat (n : nat) : t := of_Z (Z.of_nat n).

Definition is_nan (x : t) : bool :=
  match x with NaN => true | _ => false end.

Definition is_zero (x : t) : bool :=
  match x with Fin r => Reqb r 0 | _ => false end.

Definition is_neg (x : t) : bool :=
  match x with NInf => true | Fin r => Rltb r 0 | _ => false end.

Definition signed_inf (negative : bool) : t :=
  if negative then NInf else PInf.

Definition neg (x : t) : t :=
  match x with
  | NaN => NaN
  | NInf => PInf
  | PInf => NInf
  | Fin r => Fin (- r)
  end.

Definition add (x y : t) : t :=
  match x, y with
  | NaN, _ | _, NaN => NaN
  | PInf, NInf | NInf, PInf => NaN
  | PInf, _ | _, PInf => PInf
  | NInf, _ | _, NInf => NInf
  | Fin a, Fin b => Fin (a + b)
  end.

Definition sub (x y : t) : t := add x (neg y).

Definition mul (x y : t) : t :=
  match x, y with
  | NaN, _ | _, NaN => NaN
  | Fin a, Fin b => Fin (a * b)
  | _, _ =>
      if is_zero x || is_zero y then NaN
      else signed_inf (xorb (is_neg x) (is_neg y))
  end.

Definition div (x y : t) : t :=
  match x, y with
  | NaN, _ | _, NaN => NaN
  | Fin a, Fin b =>
      if Reqb b 0 then (if Reqb a 0 then NaN else signed_inf (Rltb a 0))
      else Fin (a / b)
  | Fin _, _ => Fin 0
  | _, Fin _ => signed_inf (xorb (is_neg x) (is_neg y))
  | _, _ => NaN
  end.

(** IEEE comparisons: every comparison with [nan] is false. *)
Definition ltb (x y : t) : bool :=
  match x, y with
  | NaN, _ | _, NaN => false
  | _, NInf => false
  | NInf, _ => true
  | PInf, _ => false
  | Fin _, PInf => true
  | Fin a, Fin b => Rltb a b
  end.

Definition eqb (x y : t) : bool :=
  match x, y with
  | NInf, NInf | PInf, PInf => true
  | Fin a, Fin b => Reqb a b
  | _, _ => false
  end.

(** [np.log]: [-inf] at zero and [nan] below it (numpy only warns). *)
Definition log (x : t) : t :=
  match x with
  | NaN => NaN
  | NInf => NaN
  | PInf => PInf
  | Fin r => if Rltb 0 r then Fin (ln r) else if Reqb r 0 then NInf else NaN
  end.

Definition finite (x : t) : Prop :=
  match x with Fin _ => True | _ => False end.

Definition positive (x : t) : Prop :=
  match x with Fin r => (0 < r)%R | _ => False end.

End F64.

(** ** pandas: [Series.min] and [Series.max]

    Both skip missing samples ([skipna=True]) and give [nan] when nothing
    is left. *)

Fixpoint series_min (data : list F64.t) : F64.t :=
  match data with
  | [] => F64.NaN
  | x :: rest =>
      let m := series_min rest in
      if F64.is_nan x then m
      else if F64.is_nan m then x
      else if F64.ltb m x then m else x
  end.

Fixpoint series_max (data : list F64.t) : F64.t :=
  match data with
  | [] => F64.NaN
  | x :: rest =>
      let m := series_max rest in
      if F64.is_nan x then m
      else if F64.is_nan m then x
      else if F64.ltb x m then m else x
  end.

(** ** numpy: [linspace], [digitize] *)

Definition arange (num : nat) : list F64.t := map F64.of_nat (seq 0 num).

(** [y[-1] = stop] *)
Definition set_last (y : list F64.t) (stop : F64.t) : list F64.t :=
  match y with
  | [] => []
  | _ => removelast y ++ [stop]
  end.

(** [np.linspace(start, stop, num)] with [endpoint=True]. *)
Definition linspace (start stop : F64.t) (num : Z) : result (list F64.t) :=
  if (num <? 0)%Z then Raise ValueError
  else
    let div := (num - 1)%Z in
    let delta := F64.sub stop start in
    let y := arange (Z.to_nat num) in
    let y :=
      if (0 <? div)%Z then
        let step := F64.div delta (F64.of_Z div) in
        if F64.eqb step (F64.Fin 0)
        then map (fun v => F64.mul (F64.div v (F64.of_Z div)) delta) y
        else map (fun v => F64.mul v step) y
      else map (fun v => F64.mul v delta) y in
    let y := map (fun v => F64.add v start) y in
    Ok (if (1 <? num)%Z then set_last y stop else y).

(** The monotonicity test of [np.digitize] (numpy's
    [check_array_monotonic]): [1] increasing or constant, [-1] decreasing,
    [0] neither. *)
Fixpoint skip_repeated (last : F64.t) (a : list F64.t) : list F64.t :=
  match a with
  | [] => []
  | x :: rest => if F64.eqb x last then skip_repeated last rest else a
  end.

Fixpoint no_descent (last : F64.t) (a : list F64.t) : bool :=
  match a with
  | [] => true
  | next :: rest => if F64.ltb next last then false else no_descent next rest
  end.

Fixpoint no_ascent (last : F64.t) (a : list F64.t) : bool :=
  match a with
  | [] => true
  | next :: rest => if F64.ltb last next then false else no_ascent next rest
  end.

Definition monotonicity (a : list F64.t) : Z :=
  match a with
  | [] => 1
  | last :: rest =>
      match skip_repeated last rest with
      | [] => 1
      | next :: rest' =>
          if F64.ltb last next
          then (if no_descent next rest' then 1 else 0)
          else (if no_ascent next rest' then -1 else 0)
      end
  end%Z.

(** The order in which numpy sorts and searches: [nan] after all numbers. *)
Definition np_lt (x y : F64.t) : bool :=
  F64.ltb x y || (F64.is_nan y && negb (F64.is_nan x)).

(** [np.searchsorted(a, v, side='right')] for [a] sorted in numpy's order:
    the insertion point after the elements that are not greater than [v],
    that is the number of such elements. *)
Definition searchsorted_right (a : list F64.t) (v : F64.t) : Z :=
  Z.of_nat (length (filter (fun e => negb (np_lt v e)) a)).

(** [np.digitize(x, bins)] with [right=False]. *)
Definition digitize (x bins : list F64.t) : result (list Z) :=
  let mono := monotonicity bins in
  if (mono =? 0)%Z then Raise ValueError
  else if (mono =? -1)%Z
       then Ok (map (fun v => Z.of_nat (length bins) - searchsorted_right (rev bins) v)%Z x)
       else Ok (map (searchsorted_right bins) x).

(** ** The scale quantizer: [freqMap] (app.py, lines 206-215) *)

(** The two branches of [freqMap], up to its local variable [digitized]:
    the bin index of every sample. *)
Definition bin_indices {A : Type} (data : list F64.t) (freq : list A)
    (log : bool) : result (list Z) :=
  if log then
    bins <- linspace (F64.log (series_min data)) (F64.log (series_max data))
              (Z.of_nat (length freq) - 1) ;;
    digitize (map F64.log data) bins
  else
    bins <- linspace (series_min data) (series_max data)
              (Z.of_nat (length freq) - 1) ;;
    digitize data bins.

(** [inv] and [offset] are parameters of the function; its body never reads
    them. *)
Definition freqMap {A : Type} (data : list F64.t) (freq : list A)
    (log inv : bool) (offset : Z) : result (list A) :=
  digitized <- bin_indices data freq log ;;
  mapM (getitem freq) digitized.

(** ** The quantizer over binary64 numbers

    The same functions, line by line, over the binary64 numbers of
    [PrimFloat]: sums, differences, products and quotients are rounded to
    nearest even and overflow to an infinity, comparisons involving [nan]
    are false. *)

Module B64.

Import Floats.

(** An integer (an index of [np.arange], the divisor of [np.linspace], a
    count of a run) converted to binary64. *)
Definition of_Z (z : Z) : float := PrimFloat.of_uint63 (Uint63.of_Z z).
Definition of_nat (n : nat) : float := of_Z (Z.of_nat n).

(** pandas: [Series.min] and [Series.max]. *)
Fixpoint series_min (data : list float) : float :=
  match data with
  | [] => nan
  | x :: rest =>
      let m := series_min rest in
      if is_nan x then m
      else if is_nan m then x
      else if (m <? x)%float then m else x
  end.

Fixpoint series_max (data : list float) : float :=
  match data with
  | [] => nan
  | x :: rest =>
      let m := series_max rest in
      if is_nan x then m
      else if is_nan m then x
      else if (x <? m)%float then m else x
  end.

(** numpy: [linspace]. *)
Definition arange (num : nat) : list float := map of_nat (seq 0 num).

Definition set_last (y : list float) (stop : float) : list float :=
  match y with
  | [] => []
  | _ => removelast y ++ [stop]
  end.

Definition linspace (start stop : float) (num : Z) : result (list float) :=
  if (num <? 0)%Z then Raise ValueError
  else
    let div := (num - 1)%Z in
    let delta := (stop - start)%float in
    let y := arange (Z.to_nat num) in
    let y :=
      if (0 <? div)%Z then
        let step := (delta / of_Z div)%float in
        if (step =? 0)%float
        then map (fun v => (v / of_Z div * delta)%float) y
        else map (fun v => (v * step)%float) y
      else map (fun v => (v * delta)%float) y in
    let y := map (fun v => (v + start)%float) y in
    Ok (if (1 <? num)%Z then set_last y stop else y).

(** numpy: the monotonicity test of [digitize]. *)
Fixpoint skip_repeated (last : float) (a : list float) : list float :=
  match a with
  | [] => []
  | x :: rest => if (x =? last)%float then skip_repeated last rest else a
  end.

Fixpoint no_descent (last : float) (a : list float) : bool :=
  match a with
  | [] => true
  | next :: rest => if (next <? last)%float then false else no_descent next rest
  end.

Fixpoint no_ascent (last : float) (a : list float) : bool :=
  match a with
  | [] => true
  | next :: rest => if (last <? next)%float then false else no_ascent next rest
  end.

Definition monotonicity (a : list float) : Z :=
  match a with
  | [] => 1
  | last :: rest =>
      match skip_repeated last rest with
      | [] => 1
      | next :: rest' =>
          if (last <? next)%float
          then (if no_descent next rest' then 1 else 0)
          else (if no_ascent next rest' then -1 else 0)
      end
  end%Z.

(** numpy: the order of [searchsorted], [nan] after all numbers. *)
Definition np_lt (x y : float) : bool :=
  (x <? y)%float || (is_nan y && negb (is_nan x)).

(** [np.searchsorted(a, v, side='right')] for [a] sorted in that order:
    the number of elements that are not greater than [v]. *)
Definition searchsorted_right (a : list float) (v : float) : Z :=
  Z.of_nat (length (filter (fun e => negb (np_lt v e)) a)).

Definition np_sorted (a : list float) : Prop :=
  StronglySorted (fun x y => np_lt y x = false) a.

Definition digitize (x bins : list float) : result (list Z) :=
  let mono := monotonicity bins in
  if (mono =? 0)%Z then Raise ValueError
  else if (mono =? -1)%Z
       then Ok (map (fun v => Z.of_nat (length bins) - searchsorted_right (rev bins) v)%Z x)
       else Ok (map (searchsorted_right bins) x).

Section Quantizer.

(** [np.log] on binary64 numbers. *)
Variable np_log : float -> float.

Definition bin_indices {A : Type} (data : list float) (freq : list A)
    (log : bool) : result (list Z) :=
  if log then
    bins <- linspace (np_log (series_min data)) (np_log (series_max data))
              (Z.of_nat (length freq) - 1) ;;
    digitize (map np_log data) bins
  else
    bins <- linspace (series_min data) (series_max data)
              (Z.of_nat (length freq) - 1) ;;
    digitize data bins.

Definition freqMap {A : Type} (data : list float) (freq : list A)
    (log inv : bool) (offset : Z) : result (list A) :=
  digitized <- bin_indices data freq log ;;
  mapM (getitem freq) digitized.

(** A sample in the space in which the edges are laid out. *)
Definition key (log : bool) (v : float) : float := if log then np_log v else v.

End Quantizer.

(** What stands for [np.log] in the runs with [log=False], which never
    call it. *)
Definition log_not_called (x : float) : float := nan.

(** [np.log] keeps the order of positive numbers. *)
Definition keeps_order (np_log : float -> float) : Prop :=
  forall x y, (0 <? x)%float = true -> (x <=? y)%float = true ->
    (np_log x <=? np_log y)%float = true.

(** A series in which every sample is below the next. *)
Fixpoint increasing (data : list float) : Prop :=
  match data with
  | [] => True
  | x :: rest =>
      match rest with
      | [] => True
      | y :: _ => (x <? y)%float = true
      end /\ increasing rest
  end.

(** A list of integers that never increases. *)
Fixpoint nonincreasing (l : list Z) : Prop :=
  match l with
  | [] => True
  | x :: rest =>
      match rest with
      | [] => True
      | y :: _ => (y <= x)%Z
      end /\ nonincreasing rest
  end.

(** The place of a number on the line of the binary64 numbers: the order
    of two numbers is the lexicographic order of their places, the two
    zeros share one place. *)
Definition place (x : spec_float) : Z * (Z * Z) :=
  match x with
  | S754_nan => (3, (0, 0))
  | S754_infinity true => (-2, (0, 0))
  | S754_infinity false => (2, (0, 0))
  | S754_zero _ => (0, (0, 0))
  | S754_finite true m e => (-1, (- e, - Z.pos m))
  | S754_finite false m e => (1, (e, Z.pos m))
  end%Z.

Definition position (x : float) : Z * (Z * Z) := place (Prim2SF x).

Definition before (p q : Z * (Z * Z)) : Prop :=
  (fst p < fst q
   \/ (fst p = fst q
       /\ (fst (snd p) < fst (snd q)
           \/ (fst (snd p) = fst (snd q) /\ snd (snd p) < snd (snd q)))))%Z.

(** A number that is not negative: [nan], a zero of either sign, or a
    positive number. *)
Definition not_negative (x : spec_float) : Prop :=
  match x with
  | S754_infinity true => False
  | S754_finite true _ _ => False
  | _ => True
  end.

(** A positive number that is not below the positive number of mantissa
    [mx] and exponent [ex]. *)
Definition at_least (mx : positive) (ex : Z) (r : spec_float) : Prop :=
  match r with
  | S754_infinity false => True
  | S754_finite false m e => (ex < e \/ (e = ex /\ Z.pos mx <= Z.pos m))%Z
  | _ => False
  end.

(** A zero of either sign, or [nan]: what [0 * x] and [0 / x] can be. *)
Definition zero_like (z : float) : Prop :=
  Prim2SF z = S754_nan \/ exists s, Prim2SF z = S754_zero s.

End B64.

(** ** The run encoder: [make_track] (app.py, lines 217-224)

    A track is a list of [[note, count]] pairs; the loop either bumps the
    count of the last pair or appends a new pair. *)

Section RunEncoder.

Variable A : Type.
Variable eq_dec : forall x y : A, {x = y} + {x <> y}.

(** [track[-1]] and the list without it. *)
Fixpoint split_last (track : list (A * nat)) : option (list (A * nat) * (A * nat)) :=
  match track with
  | [] => None
  | r :: rest =>
      match split_last rest with
      | None => Some ([], r)
      | Some (before, l) => Some (r :: before, l)
      end
  end.

(** The body of the [for] loop. *)
Definition track_step (track : list (A * nat)) (note : A) : result (list (A * nat)) :=
  match split_last track with
  | None => Raise IndexError
  | Some (before, (p, c)) =>
      if eq_dec note p then Ok (before ++ [(p, c + 1)])
      else Ok (track ++ [(note, 1)])
  end.

Fixpoint track_loop (track : list (A * nat)) (notes : list A) : result (list (A * nat)) :=
  match notes with
  | [] => Ok track
  | note :: rest => track' <- track_step track note ;; track_loop track' rest
  end.

Definition make_track (note_list : list A) : result (list (A * nat)) :=
  first <- getitem note_list 0 ;;
  track_loop [(first, 1)] (skipn 1 note_list).

(** Expanding a run sequence: each pitch repeated by its count. *)
Fixpoint expand (track : list (A * nat)) : list A :=
  match track with
  | [] => []
  | (p, c) :: rest => repeat p c ++ expand rest
  end.

Definition total_count (track : list (A * nat)) : nat :=
  fold_right (fun r acc => snd r + acc) 0 track.

(** The number of maximal constant stretches of a sequence: one for the
    first sample and one more at every position whose value differs from
    the value before it. *)
Fixpoint changes (prev : A) (l : list A) : nat :=
  match l with
  | [] => 0
  | x :: rest => (if eq_dec x prev then 0 else 1) + changes x rest
  end.

Definition stretches (l : list A) : nat :=
  match l with
  | [] => 0
  | x :: rest => S (changes x rest)
  end.

(** Every sample differs from the one before it. *)
Fixpoint alternating (l : list A) : Prop :=
  match l with
  | [] => True
  | x :: rest =>
      match rest with
      | [] => True
      | y :: _ => x <> y
      end /\ alternating rest
  end.

(** ** The voice assembler: the note loop of [generate_midi]
    (app.py, lines 654-664)

    [beat_length] is the binary64 number the form delivers, the count of a
    run is converted to binary64 before it is multiplied, and the clock
    [start_time] is advanced by binary64 additions.  (A [beat_length] that
    arrives as a Python integer takes the same course as long as the times
    stay below [2^53].) *)

Record Note : Type := mkNote {
  velocity : Z;
  pitch : A;
  start : PrimFloat.float;
  end_ : PrimFloat.float
}.

(** [pm.Note(velocity, pitch, start, end)]: pretty_midi raises
    [ValueError] for a note that ends before it starts. *)
Definition pm_Note (velocity : Z) (pitch : A) (start end_ : PrimFloat.float)
    : result Note :=
  if PrimFloat.ltb end_ start then Raise ValueError
  else Ok (mkNote velocity pitch start end_).

(** One pass of [for note_info in track], from a given [start_time];
    the notes are those appended to [instrument.notes], in order. *)
Fixpoint note_loop (beat_length start_time : PrimFloat.float)
    (track : list (A * nat)) : result (list Note) :=
  match track with
  | [] => Ok []
  | note_info :: rest =>
      let end_time :=
        PrimFloat.add start_time
          (PrimFloat.mul beat_length (B64.of_nat (snd note_info))) in
      note <- pm_Note 100 (fst note_info) start_time end_time ;;
      notes <- note_loop beat_length end_time rest ;;
      Ok (note :: notes)
  end.

(** [start_time = 0] and the loop. *)
Definition track_notes (beat_length : PrimFloat.float) (track : list (A * nat))
    : result (list Note) :=
  note_loop beat_length PrimFloat.zero track.

(** [start_time] when the loop over a track is left. *)
Definition final_time (beat_length start_time : PrimFloat.float)
    (track : list (A * nat)) : PrimFloat.float :=
  fold_left
    (fun t note_info =>
       PrimFloat.add t (PrimFloat.mul beat_length (B64.of_nat (snd note_info))))
    track start_time.


End RunEncoder.

(** ** Auxiliary definitions for the statements *)

(** The bin edges of [linspace] between two finite ends, as real numbers:
    [num] equally spaced points, the first at [a]. *)
Definition redges (a b : R) (num : nat) : list R :=
  map (fun i => (a + INR i * ((b - a) / INR (num - 1)))%R) (seq 0 num).

(** The space in which the edges are laid out, and a sample taken there. *)
Definition space (log : bool) (r : R) : R := if log then ln r else r.

Definition key (log : bool) (v : F64.t) : F64.t := if log then F64.log v else v.

(** The number of edges that are not above a finite sample. *)
Definition count_le (l : list R) (r : R) : nat :=
  length (filter (fun e => negb (Rltb r e)) l).

(** Sorted in the order in which numpy searches. *)
Definition np_sorted (a : list F64.t) : Prop :=
  StronglySorted (fun x y => np_lt y x = false) a.

(** The array that [digitize] hands to [searchsorted]. *)
Definition searched (bins : list F64.t) : list F64.t :=
  if (monotonicity bins =? -1)%Z then rev bins else bins.

(** A list of integers that never decreases. *)
Fixpoint nondecreasing (l : list Z) : Prop :=
  match l with
  | [] => True
  | x :: rest =>
      match rest with
      | [] => True
      | y :: _ => (x <= y)%Z
      end /\ nondecreasing rest
  end.

(** The entry of a Python list at a position inside it. *)
Definition entry {A : Type} (freq : list A) (i : Z) : option A :=
  if (i <? 0)%Z then None else nth_error freq (Z.to_nat i).

(** ** The three voices of [generate_midi] (app.py, lines 610-664)

    The part of the callback between the choice of the scales and the
    notes of the three instruments, on the three series already cut out of
    the data frame.  It stops before [midi.write] (line 673): what the
    MIDI writer does with the notes is not part of it. *)

Section Voices.

Variable A : Type.
Variable eq_dec : forall x y : A, {x = y} + {x <> y}.

Record voices : Type := mkVoices {
  voice1_fm : list A;
  notes1 : list (Note A);
  notes2 : list (Note A);
  notes3 : list (Note A);
  seconds : PrimFloat.float
}.

(** [freqMap] is called with its defaults ([log=True]); the scales of the
    second and third voice are reversed by the caller when the voice is
    inverted; the three tracks are made before the first note is, and the
    notes of a voice are made before the loop turns to the next voice;
    [seconds] is [start_time] when the loop over the third track is
    left. *)
Definition generate_midi_voices (data1 data2 data3 : list F64.t)
    (freq1 freq2 freq3 : list A) (voice2_inv voice3_inv : bool)
    (beat_length : PrimFloat.float) : result voices :=
  let freq2 := if voice2_inv then rev freq2 else freq2 in
  let freq3 := if voice3_inv then rev freq3 else freq3 in
  voice1_fm <- freqMap data1 freq1 true false 0 ;;
  voice2_fm <- freqMap data2 freq2 true false 0 ;;
  voice3_fm <- freqMap data3 freq3 true false 0 ;;
  track1 <- make_track eq_dec voice1_fm ;;
  track2 <- make_track eq_dec voice2_fm ;;
  track3 <- make_track eq_dec voice3_fm ;;
  notes1 <- track_notes beat_length track1 ;;
  notes2 <- track_notes beat_length track2 ;;
  notes3 <- track_notes beat_length track3 ;;
  Ok (mkVoices voice1_fm notes1 notes2 notes3
        (final_time beat_length PrimFloat.zero track3)).

(** Runs as [make_track] leaves them: every count is at least one and two
    neighbours never carry the same pitch. *)
Fixpoint runs_maximal (track : list (A * nat)) : Prop :=
  match track with
  | [] => True
  | r :: rest =>
      1 <= snd r
      /\ match rest with
         | [] => True
         | r' :: _ => fst r <> fst r'
         end
      /\ runs_maximal rest
  end.

End Voices.

(** ** The gauge map: [create_gauge_map] and [update_map]
    (app.py, lines 227-249 and 554-556)

    [valid_gauges] and [gauge_locations] are globals of the module, filled
    when the application starts; the model returns the five lists that the
    figure is drawn from. *)

Module GaugeMap.

Import String.

Record markers : Type := mkMarkers {
  lats : list F64.t;
  lons : list F64.t;
  names : list string;
  colors : list string;
  sizes : list Z
}.

(** A dictionary with string keys, read only: [key in d] and [d[key]]. *)
Definition dict_get {V : Type} (d : list (string * V)) (k : string) : option V :=
  match find (fun kv => String.eqb (fst kv) k) d with
  | Some kv => Some (snd kv)
  | None => None
  end.

(** [gauge in selected_gauges] *)
Definition selected_in (gauge : string) (selected_gauges : list string) : bool :=
  existsb (String.eqb gauge) selected_gauges.

Section Map.

Variable valid_gauges : list string.
Variable gauge_locations : list (string * (F64.t * F64.t * string)).

(** The body of [for gauge in valid_gauges]. *)
Definition marker_step (selected_gauges : list string) (m : markers) (gauge : string)
    : markers :=
  match dict_get gauge_locations gauge with
  | None => m
  | Some (lat, lon, name) =>
      let lats := lats m ++ [lat] in
      let lons := lons m ++ [lon] in
      let names := names m ++ [(gauge ++ "<br>" ++ name)%string] in
      if selected_in gauge selected_gauges
      then mkMarkers lats lons names (colors m ++ ["#00D856"%string]) (sizes m ++ [15%Z])
      else mkMarkers lats lons names (colors m ++ ["#1E90FF"%string]) (sizes m ++ [10%Z])
  end.

Definition create_gauge_map (selected_gauges : option (list string)) : markers :=
  let selected_gauges :=
    match selected_gauges with
    | None => []
    | Some l => l
    end in
  fold_left (marker_step selected_gauges) valid_gauges (mkMarkers [] [] [] [] []).

(** [[g for g in [gauge1, gauge2, gauge3] if g is not None]] *)
Definition not_none (gs : list (option string)) : list string :=
  flat_map (fun g => match g with Some s => [s] | None => [] end) gs.

Definition update_map (gauge1 gauge2 gauge3 : option string) : markers :=
  create_gauge_map (Some (not_none [gauge1; gauge2; gauge3])).

(** The valid gauges that have a location, in the order of [valid_gauges]. *)
Definition located : list string :=
  filter (fun gauge => match dict_get gauge_locations gauge with
                       | Some _ => true
                       | None => false
                       end) valid_gauges.

(** Colour and size of the marker of a gauge. *)
Definition colour_of (selected_gauges : list string) (gauge : string) : string :=
  if selected_in gauge selected_gauges then "#00D856"%string else "#1E90FF"%string.

Definition size_of (selected_gauges : list string) (gauge : string) : Z :=
  if selected_in gauge selected_gauges then 15%Z else 10%Z.

(** The location of a gauge that has one. *)
Definition location_of (gauge : string) : F64.t * F64.t * string :=
  match dict_get gauge_locations gauge with
  | Some location => location
  | None => (F64.NaN, F64.NaN, EmptyString)
  end.

End Map.

End GaugeMap.

(** * Properties of the run encoder *)

Section RunEncoderFacts.

Variable A : Type.
Variable eq_dec : forall x y : A, {x = y} + {x <> y}.

Lemma split_last_app (before : list (A * nat)) (r : A * nat) :
  split_last (before ++ [r]) = Some (before, r).
Proof.
  induction before as [|x before IH]; simpl.
  - reflexivity.
  - now rewrite IH.
Qed.

Lemma expand_app (t1 t2 : list (A * nat)) :
  expand (t1 ++ t2) = expand t1 ++ expand t2.
Proof.
  induction t1 as [|[p c] t1 IH]; simpl.
  - reflexivity.
  - now rewrite IH, app_assoc.
Qed.

Lemma total_count_app (t1 t2 : list (A * nat)) :
  total_count (t1 ++ t2) = total_count t1 + total_count t2.
Proof.
  unfold total_count.
  induction t1 as [|r t1 IH]; simpl; [reflexivity | rewrite IH; lia].
Qed.

Lemma repeat_snoc (p : A) (c : nat) : repeat p (c + 1) = repeat p c ++ [p].
Proof.
  induction c as [|c IH]; simpl; [reflexivity | now rewrite IH].
Qed.

(** The loop invariant of [make_track]: with the open run [(p, c)] at the
    end of the track, the loop never raises, the expansion grows by the
    notes read, and a run is added at every change of value. *)
Lemma track_loop_spec (notes : list A) :
  forall (before : list (A * nat)) (p : A) (c : nat),
  exists track',
    track_loop eq_dec (before ++ [(p, c)]) notes = Ok track'
    /\ expand track' = expand (before ++ [(p, c)]) ++ notes
    /\ total_count track' = total_count (before ++ [(p, c)]) + length notes
    /\ length track' = length before + 1 + changes eq_dec p notes.
Proof.
  induction notes as [|note rest IH]; intros before p c.
  - exists (before ++ [(p, c)]). simpl.
    rewrite app_nil_r, length_app. simpl. repeat split; lia.
  - simpl. unfold track_step. rewrite split_last_app.
    destruct (eq_dec note p) as [->|Hne]; simpl.
    + destruct (IH before p (c + 1)) as (t' & Hrun & Hexp & Hcnt & Hlen).
      exists t'. rewrite Hrun, Hexp, Hcnt, Hlen.
      rewrite !expand_app, !total_count_app. simpl.
      rewrite !app_nil_r, repeat_snoc, <- !app_assoc. simpl.
      repeat split; lia.
    + destruct (IH (before ++ [(p, c)]) note 1) as (t' & Hrun & Hexp & Hcnt & Hlen).
      exists t'. rewrite Hrun, Hexp, Hcnt, Hlen.
      rewrite 2!expand_app, 2!total_count_app, length_app. simpl.
      rewrite <- !app_assoc. simpl.
      repeat split; lia.
Qed.

Lemma changes_alternating (l : list A) (x : A) :
  alternating (x :: l) -> changes eq_dec x l = length l.
Proof.
  revert x. induction l as [|y l IH]; intros x [Hxy Hrest]; simpl.
  - reflexivity.
  - destruct (eq_dec y x) as [->|_]; [tauto|].
    now rewrite IH by exact Hrest.
Qed.

Lemma changes_constant (l : list A) (x : A) :
  (forall y, In y l -> y = x) -> changes eq_dec x l = 0.
Proof.
  induction l as [|y l IH]; intros Hall; simpl.
  - reflexivity.
  - assert (y = x) as -> by (apply Hall; now left).
    destruct (eq_dec x x) as [_|Hne]; [|tauto].
    apply IH. intros z Hz. apply Hall. now right.
Qed.

(** C2. For every non-empty quantized sequence [make_track] returns a run
    sequence whose expansion (each pitch repeated by its count) is the
    input itself; the counts sum to the length of the input; the number of
    runs is the number of maximal constant stretches of the input, which
    is one run per sample for an alternating input and exactly one run
    for a constant input. *)
Theorem make_track_roundtrip (note_list : list A) :
  note_list <> [] ->
  exists track,
    make_track eq_dec note_list = Ok track
    /\ expand track = note_list
    /\ total_count track = length note_list
    /\ length track = stretches eq_dec note_list
    /\ (alternating note_list -> length track = length note_list)
    /\ ((forall x y, In x note_list -> In y note_list -> x = y) ->
        length track = 1).
Proof.
  destruct note_list as [|first rest]; [congruence | intros _].
  destruct (track_loop_spec rest [] first 1) as (t' & Hrun & Hexp & Hcnt & Hlen).
  exists t'. unfold make_track. cbn [getitem length]. simpl in *.
  rewrite Hrun, Hexp, Hcnt, Hlen.
  repeat split; try lia.
  - intros Halt. rewrite changes_alternating by exact Halt. lia.
  - intros Hconst. rewrite changes_constant; [lia|].
    intros y Hy. apply Hconst; [now right | now left].
Qed.

End RunEncoderFacts.

(** * Rounding: a sum is not below a term that is not negative

    The sum of two binary64 numbers that are not negative is the exact
    sum rounded to nearest even.  The exact sum is not below the first
    term, the first term is a binary64 number, hence the rounded sum is
    not below it either. *)

Module RoundingFacts.

Import Floats.
Import B64.

Lemma digits_bounds (p : positive) :
  (2 ^ (Z.pos (digits2_pos p) - 1) <= Z.pos p < 2 ^ Z.pos (digits2_pos p))%Z.
Proof.
  induction p as [p IH|p IH|]; cbn [digits2_pos].
  - rewrite Pos2Z.inj_succ.
    replace (Z.succ (Z.pos (digits2_pos p)) - 1)%Z
      with (Z.succ (Z.pos (digits2_pos p) - 1)) by lia.
    rewrite !Z.pow_succ_r by lia. lia.
  - rewrite Pos2Z.inj_succ.
    replace (Z.succ (Z.pos (digits2_pos p)) - 1)%Z
      with (Z.succ (Z.pos (digits2_pos p) - 1)) by lia.
    rewrite !Z.pow_succ_r by lia. lia.
  - cbn. lia.
Qed.

(** Shifting a mantissa to the right halves it. *)
Lemma shr_1_m (mrs : shr_record) :
  (0 <= shr_m mrs)%Z -> shr_m (shr_1 mrs) = (shr_m mrs / 2)%Z.
Proof.
  destruct mrs as [m r s]. cbn [shr_m]. intros Hm. unfold shr_1.
  destruct m as [|p|p]; [reflexivity| |lia].
  destruct p as [p|p|]; cbn [shr_m].
  - change (Z.pos p~1) with (2 * Z.pos p + 1)%Z. apply Z.div_unique with 1%Z; lia.
  - change (Z.pos p~0) with (2 * Z.pos p)%Z. apply Z.div_unique with 0%Z; lia.
  - reflexivity.
Qed.

Lemma iter_shr_1_m (n : positive) :
  forall mrs, (0 <= shr_m mrs)%Z ->
    shr_m (iter_pos shr_1 n mrs) = (shr_m mrs / 2 ^ Z.pos n)%Z.
Proof.
  induction n as [n IH|n IH|]; intros mrs Hm; cbn [iter_pos].
  - assert (H1 : (0 <= shr_m (shr_1 mrs))%Z).
    { rewrite shr_1_m by exact Hm. apply Z.div_pos; lia. }
    assert (H2 : (0 <= shr_m (iter_pos shr_1 n (shr_1 mrs)))%Z).
    { rewrite IH by exact H1. apply Z.div_pos; [lia|]. apply Z.pow_pos_nonneg; lia. }
    rewrite IH by exact H2. rewrite IH by exact H1. rewrite shr_1_m by exact Hm.
    rewrite !Z.div_div by (try apply Z.pow_pos_nonneg; lia).
    f_equal. change (Z.pos n~1) with (2 * Z.pos n + 1)%Z.
    replace (2 * Z.pos n + 1)%Z with (1 + Z.pos n + Z.pos n)%Z by lia.
    rewrite !Z.pow_add_r by lia. rewrite Z.pow_1_r. ring.
  - assert (H2 : (0 <= shr_m (iter_pos shr_1 n mrs))%Z).
    { rewrite IH by exact Hm. apply Z.div_pos; [lia|]. apply Z.pow_pos_nonneg; lia. }
    rewrite IH by exact H2. rewrite IH by exact Hm.
    rewrite !Z.div_div by (try apply Z.pow_pos_nonneg; lia).
    f_equal. change (Z.pos n~0) with (2 * Z.pos n)%Z.
    replace (2 * Z.pos n)%Z with (Z.pos n + Z.pos n)%Z by lia.
    rewrite !Z.pow_add_r by lia. ring.
  - rewrite shr_1_m by exact Hm. reflexivity.
Qed.

Lemma round_nearest_even_ge (m : Z) (l : location) :
  (m <= round_nearest_even m l)%Z.
Proof.
  destruct l as [|[| |]]; cbn; try lia. destruct (Z.even m); lia.
Qed.

Lemma iter_xO (d : positive) (m : positive) :
  Z.pos (Pos.iter xO m d) = (Z.pos m * 2 ^ Z.pos d)%Z.
Proof.
  induction d as [|d IH] using Pos.peano_ind.
  - cbn. lia.
  - rewrite Pos.iter_succ. change (Z.pos (Pos.iter xO m d)~0)
      with (2 * Z.pos (Pos.iter xO m d))%Z.
    rewrite IH, Pos2Z.inj_succ.
    rewrite Z.pow_succ_r by lia. ring.
Qed.

Lemma shr_record_of_loc_m (m : Z) (l : location) : shr_m (shr_record_of_loc m l) = m.
Proof. destruct l as [|[| |]]; reflexivity. Qed.

(** The shift to the canonical exponent: the exponent it leaves and the
    mantissa it leaves. *)
Lemma shr_fexp_spec (m e : Z) (l : location) :
  (0 <= m)%Z ->
  (e + Z.max 0 (fexp prec emax (Zdigits2 m + e) - e))%Z = snd (shr_fexp prec emax m e l)
  /\ shr_m (fst (shr_fexp prec emax m e l))
     = (m / 2 ^ Z.max 0 (fexp prec emax (Zdigits2 m + e) - e))%Z.
Proof.
  intros Hm. unfold shr_fexp, shr.
  destruct (fexp prec emax (Zdigits2 m + e) - e)%Z as [|p|p] eqn:E; cbn [fst snd].
  - rewrite shr_record_of_loc_m. cbn. rewrite Z.div_1_r. split; lia.
  - rewrite iter_shr_1_m by (rewrite shr_record_of_loc_m; exact Hm).
    rewrite shr_record_of_loc_m. rewrite Z.max_r by lia. split; reflexivity.
  - rewrite shr_record_of_loc_m. rewrite Z.max_l by lia. cbn. rewrite Z.div_1_r.
    split; lia.
Qed.

Lemma fexp_eq (e : Z) : fexp prec emax e = Z.max (e - 53) (-1074).
Proof. reflexivity. Qed.

(** Rounding a positive number that is not below a binary64 number gives
    a number that is not below it. *)
Lemma binary_round_lower (M : positive) (ez : Z) (mx : positive) (ex : Z) :
  bounded prec emax mx ex = true ->
  (ez <= ex)%Z -> (Z.pos mx * 2 ^ (ex - ez) <= Z.pos M)%Z ->
  at_least mx ex (binary_round prec emax false M ez).
Proof.
  intros Hb Hez HM.
  unfold bounded, canonical_mantissa in Hb. apply andb_true_iff in Hb.
  destruct Hb as [Hc _]. apply Z.eqb_eq in Hc. rewrite fexp_eq in Hc.
  pose proof (digits_bounds mx) as [Hx1 _].
  pose proof (digits_bounds M) as [HM1 HM2].
  set (dx := Z.pos (digits2_pos mx)) in *.
  set (dM := Z.pos (digits2_pos M)) in *.
  assert (Hdx : (0 < dx)%Z) by (unfold dx; lia).
  assert (HdM : (0 < dM)%Z) by (unfold dM; lia).
  assert (F1 : (dx + ex <= dM + ez)%Z).
  { assert (H : (2 ^ (dx - 1 + (ex - ez)) < 2 ^ dM)%Z).
    { rewrite Z.pow_add_r by lia.
      apply Z.le_lt_trans with (Z.pos M); [|exact HM2].
      apply Z.le_trans with (Z.pos mx * 2 ^ (ex - ez))%Z; [|exact HM].
      apply Z.mul_le_mono_nonneg_r; [apply Z.pow_nonneg; lia | exact Hx1]. }
    apply Z.pow_lt_mono_r_iff in H; lia. }
  assert (Hshl : shl_align M ez (fexp prec emax (Z.pos (digits2_pos M) + ez)) = (M, ez)).
  { unfold shl_align. fold dM. rewrite fexp_eq.
    destruct (Z.max (dM + ez - 53) (-1074) - ez)%Z as [|p|p] eqn:E; try reflexivity. lia. }
  unfold binary_round. rewrite Hshl. unfold binary_round_aux.
  assert (HMpos : (0 <= Z.pos M)%Z) by lia.
  destruct (@shr_fexp_spec (Z.pos M) ez loc_Exact HMpos) as [He1 Hm1].
  destruct (shr_fexp prec emax (Z.pos M) ez loc_Exact) as [mrs1 e1].
  cbn [fst snd] in He1, Hm1. cbn [Zdigits2] in He1, Hm1. fold dM in He1, Hm1.
  rewrite fexp_eq in He1, Hm1.
  set (m1 := shr_m mrs1) in *.
  pose proof (round_nearest_even_ge m1 (loc_of_shr_record mrs1)) as Hm2.
  set (m2 := round_nearest_even m1 (loc_of_shr_record mrs1)) in *.
  set (k1 := Z.max 0 (Z.max (dM + ez - 53) (-1074) - ez)) in *.
  assert (Hk1 : (0 <= k1)%Z) by (unfold k1; lia).
  assert (Hpow1 : (0 < 2 ^ k1)%Z) by (apply Z.pow_pos_nonneg; lia).
  assert (G1 : (1 <= m1)%Z /\ (e1 = ex -> (Z.pos mx <= m1)%Z) /\ (ex <= e1)%Z).
  { split; [|split].
    - rewrite Hm1. apply Z.div_le_lower_bound; [exact Hpow1|].
      rewrite Z.mul_1_r.
      apply Z.le_trans with (2 ^ (dM - 1))%Z; [|exact HM1].
      apply Z.pow_le_mono_r; [lia|]. unfold k1. lia.
    - intros Heq. rewrite Hm1. apply Z.div_le_lower_bound; [exact Hpow1|].
      replace k1 with (ex - ez)%Z by lia. lia.
    - unfold k1 in He1. lia. }
  destruct G1 as (G1 & G2 & G3).
  assert (Hm2pos : (0 <= m2)%Z) by lia.
  destruct (@shr_fexp_spec m2 e1 loc_Exact Hm2pos) as [He2 Hm3].
  destruct (shr_fexp prec emax m2 e1 loc_Exact) as [mrs2 e2].
  cbn [fst snd] in He2, Hm3.
  destruct m2 as [|p2|p2] eqn:Em2; try lia.
  cbn [Zdigits2] in He2, Hm3.
  pose proof (digits_bounds p2) as [Hp1 Hp2].
  set (d2 := Z.pos (digits2_pos p2)) in *.
  assert (Hd2 : (0 < d2)%Z) by (unfold d2; lia).
  rewrite fexp_eq in He2, Hm3.
  set (k2 := Z.max 0 (Z.max (d2 + e1 - 53) (-1074) - e1)) in *.
  assert (Hk2 : (0 <= k2)%Z) by (unfold k2; lia).
  assert (Hpow2 : (0 < 2 ^ k2)%Z) by (apply Z.pow_pos_nonneg; lia).
  assert (G4 : (1 <= shr_m mrs2)%Z).
  { rewrite Hm3. apply Z.div_le_lower_bound; [exact Hpow2|].
    rewrite Z.mul_1_r.
    apply Z.le_trans with (2 ^ (d2 - 1))%Z; [|exact Hp1].
    apply Z.pow_le_mono_r; [lia|]. unfold k2. lia. }
  assert (G5 : k2 = 0%Z -> shr_m mrs2 = Z.pos p2).
  { intros ->. rewrite Hm3. cbn. apply Z.div_1_r. }
  destruct (shr_m mrs2) as [|m3|m3] eqn:Em3; try lia.
  destruct (e2 <=? emax - prec)%Z; cbn [at_least]; [|exact I].
  destruct (Z.eq_dec k2 0) as [Hz|Hnz].
  - specialize (G5 Hz). injection G5 as ->.
    destruct (Z.eq_dec e1 ex) as [Heq|Hne]; [right | left; lia].
    split; [lia|]. specialize (G2 Heq). lia.
  - left. lia.
Qed.

(** Rounding keeps the sign. *)
Lemma binary_round_aux_sign (sx : bool) (mx ex : Z) (lx : location) :
  match binary_round_aux prec emax sx mx ex lx with
  | S754_zero s | S754_infinity s | S754_finite s _ _ => s = sx
  | S754_nan => True
  end.
Proof.
  unfold binary_round_aux.
  destruct (shr_fexp prec emax mx ex lx) as [mrs1 e1].
  destruct (shr_fexp prec emax _ e1 loc_Exact) as [mrs2 e2].
  destruct (shr_m mrs2) as [|m|m]; [reflexivity| |exact I].
  destruct (e2 <=? emax - prec)%Z; reflexivity.
Qed.

Lemma binary_round_not_negative (m : positive) (e : Z) :
  not_negative (binary_round prec emax false m e).
Proof.
  unfold binary_round.
  destruct (shl_align m e _) as [mz ez].
  pose proof (binary_round_aux_sign false (Z.pos mz) ez loc_Exact) as H.
  destruct (binary_round_aux prec emax false (Z.pos mz) ez loc_Exact) as [s|s| |s m' e'];
    try exact I; subst s; exact I.
Qed.

Lemma SFmul_not_negative (x y : spec_float) :
  not_negative x -> not_negative y -> not_negative (SFmul prec emax x y).
Proof.
  destruct x as [sx|[|]| |[|] mx ex], y as [sy|[|]| |[|] my ey];
    cbn; try tauto; intros _ _.
  pose proof (binary_round_aux_sign false (Z.pos (mx * my)) (ex + ey) loc_Exact) as H.
  destruct (binary_round_aux prec emax false (Z.pos (mx * my)) (ex + ey) loc_Exact)
    as [s|s| |s m' e']; try exact I; subst s; exact I.
Qed.

Lemma SFadd_not_negative (x y : spec_float) :
  not_negative x -> not_negative y -> not_negative (SFadd prec emax x y).
Proof.
  destruct x as [[|]|[|]| |[|] mx ex], y as [[|]|[|]| |[|] my ey];
    cbn; try tauto; intros _ _.
  apply binary_round_not_negative.
Qed.

Lemma shl_align_lower (mx : positive) (ex ez : Z) :
  (ez <= ex)%Z ->
  Z.pos (fst (shl_align mx ex ez)) = (Z.pos mx * 2 ^ (ex - ez))%Z.
Proof.
  intros H. unfold shl_align.
  destruct (ez - ex)%Z as [|d|d] eqn:E; cbn [fst].
  - replace (ex - ez)%Z with 0%Z by lia. cbn. lia.
  - lia.
  - rewrite iter_xO. f_equal. f_equal. lia.
Qed.

Lemma SFltb_at_least (mx : positive) (ex : Z) (r : spec_float) :
  at_least mx ex r -> SFltb r (S754_finite false mx ex) = false.
Proof.
  destruct r as [s|[|]| |[|] m e]; cbn; try tauto.
  intros [H|[-> H]]; unfold SFltb; cbn.
  - destruct (Z.compare_spec e ex); try lia; try reflexivity.
  - rewrite Z.compare_refl. rewrite Pos.compare_cont_spec. cbn.
    destruct (Pos.compare_spec m mx); try reflexivity; try lia.
Qed.

Lemma SFltb_irrefl (x : spec_float) : SFltb x x = false.
Proof.
  destruct x as [s|[|]| |[|] m e]; try reflexivity; unfold SFltb; cbn;
    rewrite Z.compare_refl, Pos.compare_cont_refl; reflexivity.
Qed.

Lemma SFadd_not_below (x y : spec_float) :
  valid_binary x = true ->
  not_negative x -> not_negative y ->
  SFltb (SFadd prec emax x y) x = false.
Proof.
  intros Hv Hx Hy.
  destruct x as [sx|[|]| |[|] mx ex]; try contradiction;
    destruct y as [sy|[|]| |[|] my ey]; try contradiction;
    try reflexivity;
    try (destruct sx; try destruct sy; reflexivity);
    try apply SFltb_irrefl.
  cbn [SFadd].
  set (ez := Z.min ex ey).
  cbn [cond_Zopp]. cbn [Z.add].
  cbn [binary_normalize].
  apply SFltb_at_least. apply binary_round_lower.
  - exact Hv.
  - unfold ez. lia.
  - rewrite Pos2Z.inj_add. rewrite shl_align_lower by (unfold ez; lia). lia.
Qed.

Lemma not_negative_iff (x : float) :
  (x <? 0)%float = false <-> not_negative (Prim2SF x).
Proof.
  rewrite FloatAxioms.ltb_spec.
  change (Prim2SF 0) with (S754_zero false).
  destruct (Prim2SF x) as [s|[|]| |[|] m e]; cbn; split; auto; try discriminate; tauto.
Qed.

Lemma of_uint63_not_negative (n : PrimInt63.int) : not_negative (Prim2SF (of_uint63 n)).
Proof.
  rewrite FloatAxioms.of_uint63_spec.
  pose proof (Uint63.to_Z_bounded n) as [H _].
  destruct (Uint63.to_Z n) as [|p|p]; [exact I| |lia].
  apply binary_round_not_negative.
Qed.

(** The clock of the note loop: for a unit duration and a time that are
    not negative, the end time of a run is not below its start time, and
    is not negative either. *)
Lemma end_time_not_below (b s : float) (c : nat) :
  (b <? 0)%float = false -> (s <? 0)%float = false ->
  ((s + b * of_nat c) <? s)%float = false
  /\ ((s + b * of_nat c) <? 0)%float = false.
Proof.
  rewrite !not_negative_iff. intros Hb Hs.
  assert (Hp : not_negative (Prim2SF (b * of_nat c)%float)).
  { rewrite FloatAxioms.mul_spec. apply SFmul_not_negative; [exact Hb|].
    apply of_uint63_not_negative. }
  split.
  - rewrite FloatAxioms.ltb_spec, FloatAxioms.add_spec.
    apply SFadd_not_below; [apply FloatAxioms.Prim2SF_valid | exact Hs | exact Hp].
  - rewrite FloatAxioms.add_spec. apply SFadd_not_negative; assumption.
Qed.

End RoundingFacts.

(** * Properties of the voice assembler *)

Module AssemblerFacts.

Import Floats.

Section Facts.

Variable A : Type.

(** The invariant of the note loop, from any value of [start_time]. *)
Lemma note_loop_spec (beat_length : float) (track : list (A * nat)) :
  forall (start_time : float) (notes : list (Note A)),
    note_loop beat_length start_time track = Ok notes ->
    length notes = length track
    /\ (forall note, nth_error notes 0 = Some note -> start note = start_time)
    /\ (forall i note run,
          nth_error notes i = Some note -> nth_error track i = Some run ->
          velocity note = 100%Z /\ pitch note = fst run
          /\ end_ note = (start note + beat_length * B64.of_nat (snd run))%float
          /\ (end_ note <? start note)%float = false)
    /\ (forall i a b,
          nth_error notes i = Some a -> nth_error notes (S i) = Some b ->
          start b = end_ a)
    /\ (forall final, nth_error notes (length track - 1) = Some final ->
          end_ final = final_time beat_length start_time track).
Proof.
  induction track as [|r rest IH]; intros s notes H.
  - injection H as <-. cbn [length]. split; [reflexivity|].
    split; [intros note Hn; discriminate|].
    split; [intros [|i] note run Hn; discriminate|].
    split; [intros [|i] a b Hn; discriminate|].
    intros final Hn. discriminate.
  - cbn [note_loop] in H. cbv zeta in H. unfold pm_Note in H.
    destruct (s + beat_length * B64.of_nat (snd r) <? s)%float eqn:Hlt; [discriminate|].
    cbn [bind] in H.
    destruct (note_loop beat_length (s + beat_length * B64.of_nat (snd r))%float rest)
      as [tail|e] eqn:Ht; [|discriminate].
    cbn [bind] in H. injection H as <-.
    destruct (IH _ _ Ht) as (Hlen & Hfirst & Hrun & Hcont & Hlast).
    cbn [length]. split; [now rewrite Hlen|].
    split. { intros note Hn. injection Hn as <-. reflexivity. }
    split.
    { intros [|i] note run Hn Hr.
      - injection Hn as <-. injection Hr as <-. cbn. auto.
      - cbn [nth_error] in Hn, Hr. eapply Hrun; eassumption. }
    split.
    { intros [|i] a b Ha Hb.
      - injection Ha as <-. cbn [nth_error] in Hb. cbn. now apply Hfirst.
      - cbn [nth_error] in Ha, Hb. eapply Hcont; eassumption. }
    intros final Hn.
    change (final_time beat_length s (r :: rest))
      with (final_time beat_length (s + beat_length * B64.of_nat (snd r))%float rest).
    destruct rest as [|r' rest'].
    + cbn in Hn. injection Hn as <-. reflexivity.
    + cbn [length] in Hn, Hlast.
      replace (S (S (length rest')) - 1) with (S (length rest')) in Hn by lia.
      cbn [nth_error] in Hn. apply Hlast.
      replace (S (length rest') - 1) with (length rest') by lia. exact Hn.
Qed.



(** For a unit duration that is not negative the loop appends all its
    notes, and none of them starts before time [0]. *)
Lemma note_loop_total (beat_length : float) (track : list (A * nat)) :
  (beat_length <? 0)%float = false ->
  forall start_time : float,
    (start_time <? 0)%float = false ->
    exists notes,
      note_loop beat_length start_time track = Ok notes
      /\ Forall (fun note => (start note <? 0)%float = false) notes.
Proof.
  intros Hb. induction track as [|r rest IH]; intros s Hs.
  - exists []. split; [reflexivity | constructor].
  - destruct (@RoundingFacts.end_time_not_below beat_length s (snd r) Hb Hs)
      as [Hlt Hnn].
    destruct (IH _ Hnn) as (tail & Ht & Hall).
    eexists. cbn [note_loop]. cbv zeta. unfold pm_Note.
    change (PrimFloat.add s (PrimFloat.mul beat_length (B64.of_nat (snd r))))
      with (s + beat_length * B64.of_nat (snd r))%float.
    rewrite Hlt. cbn [bind]. rewrite Ht. cbn [bind].
    split; [reflexivity|]. constructor; [exact Hs | exact Hall].
Qed.

(** C3 (as the code has it, in binary64).  For every run sequence and
    every unit duration that is not negative, the loop appends one note
    per run, in order, with the pitch of the run and velocity [100]; the
    first note starts at time [0] and none starts before it; each note
    ends at the binary64 number [start + beat_length * count], which is
    not below its start; each note starts at the very number at which the
    one before it ends; and the last note ends at the value of
    [start_time] when the loop is left, the sum of the terms
    [beat_length * count] added one after the other in binary64. *)
Theorem track_notes_contiguity (beat_length : float) (track : list (A * nat)) :
  (beat_length <? 0)%float = false ->
  exists notes,
    track_notes beat_length track = Ok notes
    /\ length notes = length track
    /\ (forall note, nth_error notes 0 = Some note -> start note = 0%float)
    /\ Forall (fun note => (start note <? 0)%float = false) notes
    /\ (forall i note run,
          nth_error notes i = Some note -> nth_error track i = Some run ->
          velocity note = 100%Z /\ pitch note = fst run
          /\ end_ note = (start note + beat_length * B64.of_nat (snd run))%float
          /\ (end_ note <? start note)%float = false)
    /\ (forall i a b,
          nth_error notes i = Some a -> nth_error notes (S i) = Some b ->
          start b = end_ a)
    /\ (forall final, nth_error notes (length track - 1) = Some final ->
          end_ final = final_time beat_length 0%float track).
Proof.
  intros Hb.
  assert (H0 : (0 <? 0)%float = false) by reflexivity.
  destruct (@note_loop_total beat_length track Hb 0%float H0) as (notes & Hn & Hall).
  exists notes. split; [exact Hn|].
  destruct (@note_loop_spec beat_length track _ _ Hn) as (Hlen & Hfirst & Hrun & Hcont & Hlast).
  split; [exact Hlen|]. split; [exact Hfirst|]. split; [exact Hall|].
  split; [exact Hrun|]. split; [exact Hcont | exact Hlast].
Qed.


End Facts.

(** Ten runs of one sample each at a unit duration of [0.1]: the loop
    appends its ten notes, and the last one ends at [0.9999999999999999],
    below ten times the unit duration, which is [1.0]. *)
Lemma track_notes_ten_runs :
  exists notes final,
    track_notes 0x1.999999999999ap-4%float
      [(60%Z, 1); (64%Z, 1); (60%Z, 1); (64%Z, 1); (60%Z, 1);
       (64%Z, 1); (60%Z, 1); (64%Z, 1); (60%Z, 1); (64%Z, 1)] = Ok notes
    /\ nth_error notes 9 = Some final
    /\ end_ final = 0x1.fffffffffffffp-1%float.
Proof.
  eexists. eexists. split; [vm_compute; reflexivity|].
  split; reflexivity.
Qed.

(** A non-empty track and a positive unit duration for which the last
    note does not end at the sum of the counts times the unit duration:
    ten samples of [0.1] end at [0.9999999999999999], not at [1.0]. *)
Lemma track_notes_last_end_drifts :
  (0 <? 0x1.999999999999ap-4)%float = true
  /\ total_count
       [(60%Z, 1); (64%Z, 1); (60%Z, 1); (64%Z, 1); (60%Z, 1);
        (64%Z, 1); (60%Z, 1); (64%Z, 1); (60%Z, 1); (64%Z, 1)] = 10
  /\ exists notes final,
       track_notes 0x1.999999999999ap-4%float
         [(60%Z, 1); (64%Z, 1); (60%Z, 1); (64%Z, 1); (60%Z, 1);
          (64%Z, 1); (60%Z, 1); (64%Z, 1); (60%Z, 1); (64%Z, 1)] = Ok notes
       /\ nth_error notes 9 = Some final
       /\ (end_ final =? B64.of_nat 10 * 0x1.999999999999ap-4)%float = false
       /\ (end_ final <? B64.of_nat 10 * 0x1.999999999999ap-4)%float = true.
Proof.
  split; [vm_compute; reflexivity|]. split; [reflexivity|].
  destruct track_notes_ten_runs as (notes & final & Hn & Hf & He).
  exists notes, final. rewrite He. repeat split; try assumption;
    vm_compute; reflexivity.
Qed.

(** A negative unit duration: the first note would end before it
    starts. *)
Lemma track_notes_negative_run :
  track_notes (-0x1.999999999999ap-3)%float [(60%Z, 2); (64%Z, 1)]
  = Raise ValueError.
Proof. vm_compute. reflexivity. Qed.

Lemma track_notes_contiguity_witness :
  exists notes,
    track_notes 0x1.999999999999ap-3%float [(60%Z, 2); (64%Z, 1)] = Ok notes
    /\ length notes = 2
    /\ (forall i a b,
          nth_error notes i = Some a -> nth_error notes (S i) = Some b ->
          start b = end_ a)
    /\ (forall final, nth_error notes 1 = Some final ->
          end_ final
          = final_time 0x1.999999999999ap-3%float 0%float [(60%Z, 2); (64%Z, 1)]).
Proof.
  destruct (@track_notes_contiguity Z 0x1.999999999999ap-3%float
              [(60%Z, 2); (64%Z, 1)]) as (notes & Hn & Hlen & _ & _ & _ & Hc & Hl).
  - reflexivity.
  - exists notes. split; [exact Hn|]. split; [exact Hlen|].
    split; [exact Hc | exact Hl].
Defined.

End AssemblerFacts.

(** * Comparisons *)

Lemma Rltb_true (x y : R) : (x < y)%R -> Rltb x y = true.
Proof. unfold Rltb; destruct (Rlt_dec x y); tauto. Qed.

Lemma Rltb_false (x y : R) : ~ (x < y)%R -> Rltb x y = false.
Proof. unfold Rltb; destruct (Rlt_dec x y); tauto. Qed.

Lemma Reqb_true (x y : R) : x = y -> Reqb x y = true.
Proof. unfold Reqb; destruct (Req_dec_T x y); tauto. Qed.

Lemma Reqb_false (x y : R) : x <> y -> Reqb x y = false.
Proof. unfold Reqb; destruct (Req_dec_T x y); tauto. Qed.

Lemma Rltb_spec (x y : R) : Rltb x y = true <-> (x < y)%R.
Proof. unfold Rltb; destruct (Rlt_dec x y); intuition congruence. Qed.

Lemma Rltb_nspec (x y : R) : Rltb x y = false <-> (y <= x)%R.
Proof. unfold Rltb; destruct (Rlt_dec x y); split; intros; try congruence; lra. Qed.

Lemma Reqb_spec (x y : R) : Reqb x y = true <-> x = y.
Proof. unfold Reqb; destruct (Req_dec_T x y); intuition congruence. Qed.

Arguments Rltb : simpl never.
Arguments Reqb : simpl never.

(** Decide the comparisons of a goal between concrete real numbers. *)
Ltac rcmp :=
  repeat match goal with
  | |- context [Rltb ?a ?b] =>
      first [rewrite (@Rltb_true a b) by lra | rewrite (@Rltb_false a b) by lra]
  | |- context [Reqb ?a ?b] =>
      first [rewrite (@Reqb_true a b) by lra | rewrite (@Reqb_false a b) by lra]
  end.

(** Run the quantizer on a concrete input: unfold the model, simplify, and
    decide each comparison of real numbers as it comes up. *)
Ltac norm_pos :=
  match goal with
  | |- context [Pos.to_nat ?p] =>
      let v := eval vm_compute in (Pos.to_nat p) in
      change (Pos.to_nat p) with v
  end.

Ltac run_model :=
  unfold freqMap, bin_indices;
  repeat first
    [ progress rcmp
    | progress cbn
    | norm_pos
    | progress unfold linspace, digitize, monotonicity, arange, set_last,
        searchsorted_right, np_lt, getitem ].

(** The finite part of the IEEE order is the order of the reals. *)
Lemma ltb_irrefl (x : F64.t) : F64.ltb x x = false.
Proof. destruct x; simpl; try reflexivity. apply Rltb_false. lra. Qed.

Lemma ltb_fin (a b : R) : F64.ltb (F64.Fin a) (F64.Fin b) = Rltb a b.
Proof. reflexivity. Qed.

(** [x <= y <= z] on values that are not [nan]. *)
Lemma ltb_false_trans (x y z : F64.t) :
  F64.is_nan y = false ->
  F64.ltb y x = false -> F64.ltb z y = false -> F64.ltb z x = false.
Proof.
  destruct x, y, z; simpl; intros Hy H1 H2; try reflexivity; try discriminate.
  apply Rltb_nspec in H1, H2. apply Rltb_nspec. lra.
Qed.

Lemma ltb_false_total (x y : F64.t) :
  F64.ltb x y = true -> F64.ltb y x = false.
Proof.
  destruct x, y; simpl; intros H; try reflexivity; try discriminate.
  apply Rltb_spec in H. apply Rltb_nspec. lra.
Qed.

(** * [Series.min] and [Series.max] *)

(** Either every sample is missing, or the minimum is a sample that is not
    missing and no sample is below it. *)
Lemma series_min_spec (data : list F64.t) :
  (series_min data = F64.NaN /\ Forall (fun x => F64.is_nan x = true) data)
  \/ (F64.is_nan (series_min data) = false
      /\ In (series_min data) data
      /\ forall x, In x data -> F64.ltb x (series_min data) = false).
Proof.
  induction data as [|x rest IH]; simpl.
  - left. split; [reflexivity | constructor].
  - destruct (F64.is_nan x) eqn:Hx.
    + destruct IH as [[Hm Hall] | (Hm & Hin & Hlow)].
      * left. split; [exact Hm | now constructor].
      * right. split; [exact Hm|]. split; [now right|].
        intros y [<- | Hy]; [|now apply Hlow].
        destruct x; try discriminate. reflexivity.
    + right. destruct IH as [[Hm Hall] | (Hm & Hin & Hlow)].
      * rewrite Hm. simpl. split; [exact Hx|]. split; [now left|].
        intros y [<- | Hy]; [apply ltb_irrefl|].
        rewrite Forall_forall in Hall. specialize (Hall y Hy).
        destruct y; try discriminate. reflexivity.
      * rewrite Hm. destruct (F64.ltb (series_min rest) x) eqn:Hlt.
        -- split; [exact Hm|]. split; [now right|].
           intros y [<- | Hy]; [now apply ltb_false_total | now apply Hlow].
        -- split; [exact Hx|]. split; [now left|].
           intros y [<- | Hy]; [apply ltb_irrefl|].
           apply ltb_false_trans with (y := series_min rest); auto.
  Qed.

Lemma series_max_spec (data : list F64.t) :
  (series_max data = F64.NaN /\ Forall (fun x => F64.is_nan x = true) data)
  \/ (F64.is_nan (series_max data) = false
      /\ In (series_max data) data
      /\ forall x, In x data -> F64.ltb (series_max data) x = false).
Proof.
  induction data as [|x rest IH]; simpl.
  - left. split; [reflexivity | constructor].
  - destruct (F64.is_nan x) eqn:Hx.
    + destruct IH as [[Hm Hall] | (Hm & Hin & Hup)].
      * left. split; [exact Hm | now constructor].
      * right. split; [exact Hm|]. split; [now right|].
        intros y [<- | Hy]; [|now apply Hup].
        destruct x; try discriminate. now destruct (series_max rest).
    + right. destruct IH as [[Hm Hall] | (Hm & Hin & Hup)].
      * rewrite Hm. simpl. split; [exact Hx|]. split; [now left|].
        intros y [<- | Hy]; [apply ltb_irrefl|].
        rewrite Forall_forall in Hall. specialize (Hall y Hy).
        destruct y; try discriminate. now destruct x.
      * rewrite Hm. destruct (F64.ltb x (series_max rest)) eqn:Hlt.
        -- split; [exact Hm|]. split; [now right|].
           intros y [<- | Hy]; [now apply ltb_false_total | now apply Hup].
        -- split; [exact Hx|]. split; [now left|].
           intros y [<- | Hy]; [apply ltb_irrefl|].
           apply ltb_false_trans with (y := series_max rest); auto.
  Qed.

(** * [linspace] between finite ends *)

Lemma series_min_le_max (data : list F64.t) (a b : R) :
  series_min data = F64.Fin a -> series_max data = F64.Fin b -> (a <= b)%R.
Proof.
  intros Hmin Hmax.
  destruct (series_min_spec data) as [[Hm _] | (_ & Hin & _)]; [congruence|].
  destruct (series_max_spec data) as [[Hm _] | (_ & _ & Hup)]; [congruence|].
  specialize (Hup _ Hin). rewrite Hmin, Hmax in Hup.
  now apply Rltb_nspec in Hup.
Qed.

Lemma set_last_snoc (y : list F64.t) (x stop : F64.t) :
  set_last (y ++ [x]) stop = y ++ [stop].
Proof.
  unfold set_last. rewrite removelast_last.
  now destruct y.
Qed.

Lemma INR_of_nat (i : nat) : IZR (Z.of_nat i) = INR i.
Proof. symmetry. apply INR_IZR_INZ. Qed.

(** Between finite ends [linspace] returns the equally spaced edges. *)
Lemma linspace_fin (a b : R) (num : nat) :
  linspace (F64.Fin a) (F64.Fin b) (Z.of_nat num) = Ok (map F64.Fin (redges a b num)).
Proof.
  unfold linspace, redges, arange.
  replace (Z.of_nat num <? 0)%Z with false by (symmetry; apply Z.ltb_ge; lia).
  rewrite Nat2Z.id.
  destruct num as [|[|m]].
  - reflexivity.
  - simpl. do 3 f_equal. ring.
  - replace (0 <? Z.of_nat (S (S m)) - 1)%Z with true by (symmetry; apply Z.ltb_lt; lia).
    replace (1 <? Z.of_nat (S (S m)))%Z with true by (symmetry; apply Z.ltb_lt; lia).
    replace (Z.of_nat (S (S m)) - 1)%Z with (Z.of_nat (S m)) by lia.
    replace (S (S m) - 1) with (S m) by lia.
    assert (Hd : INR (S m) <> 0%R) by (apply not_0_INR; lia).
    set (h := ((b - a) / INR (S m))%R).
    assert (Hstep : F64.div (F64.sub (F64.Fin b) (F64.Fin a)) (F64.of_Z (Z.of_nat (S m)))
                    = F64.Fin h).
    { unfold F64.of_Z. rewrite INR_of_nat.
      cbn [F64.div F64.mul F64.add F64.sub F64.neg].
      rewrite Reqb_false by exact Hd. reflexivity. }
    rewrite Hstep.
    assert (Hy : forall i,
      (if F64.eqb (F64.Fin h) (F64.Fin 0)
       then F64.add (F64.mul (F64.div (F64.of_nat i) (F64.of_Z (Z.of_nat (S m))))
                             (F64.sub (F64.Fin b) (F64.Fin a))) (F64.Fin a)
       else F64.add (F64.mul (F64.of_nat i) (F64.Fin h)) (F64.Fin a))
      = F64.Fin (a + INR i * h)).
    { intros i. unfold F64.of_nat, F64.of_Z. rewrite !INR_of_nat.
      destruct (F64.eqb (F64.Fin h) (F64.Fin 0));
        cbn [F64.div F64.mul F64.add F64.sub F64.neg].
      - rewrite Reqb_false by exact Hd.
        cbn [F64.div F64.mul F64.add F64.sub F64.neg].
        f_equal. unfold h. field. exact Hd.
      - f_equal. ring. }
    f_equal.
    rewrite (seq_S (S m) 0). simpl "+".
    destruct (F64.eqb (F64.Fin h) (F64.Fin 0)) eqn:Hz;
      rewrite !map_map, !map_app; cbn [map];
      rewrite set_last_snoc; f_equal.
    + apply map_ext. intros i. exact (Hy i).
    + do 2 f_equal. unfold h. field. exact Hd.
    + apply map_ext. intros i. exact (Hy i).
    + do 2 f_equal. unfold h. field. exact Hd.
Qed.

Lemma redges_length (a b : R) (num : nat) : length (redges a b num) = num.
Proof. unfold redges. now rewrite length_map, length_seq. Qed.

(** The spacing of the edges is not negative when [a <= b]. *)
Lemma spacing_nonneg (a b : R) (k : nat) :
  (a <= b)%R -> (0 <= (b - a) / INR k)%R.
Proof.
  intros Hab. destruct k as [|k].
  - simpl. unfold Rdiv. rewrite Rinv_0. lra.
  - assert (0 < INR (S k))%R by (apply lt_0_INR; lia).
    assert (0 < / INR (S k))%R by (now apply Rinv_0_lt_compat).
    unfold Rdiv. nra.
Qed.

Lemma StronglySorted_map_seq (f : nat -> R) (n : nat) :
  (forall i j, i <= j -> (f i <= f j)%R) ->
  forall s, StronglySorted Rle (map f (seq s n)).
Proof.
  intros Hf. induction n as [|n IH]; intros s; simpl.
  - constructor.
  - constructor; [apply IH|].
    rewrite Forall_forall. intros y Hy.
    apply in_map_iff in Hy. destruct Hy as (j & <- & Hj).
    apply in_seq in Hj. apply Hf. lia.
Qed.

Lemma redges_sorted (a b : R) (num : nat) :
  (a <= b)%R -> StronglySorted Rle (redges a b num).
Proof.
  intros Hab. unfold redges. apply StronglySorted_map_seq.
  intros i j Hij.
  assert (Hh := spacing_nonneg (num - 1) Hab).
  assert (INR i <= INR j)%R by (apply le_INR; exact Hij).
  nra.
Qed.

(** Every edge is [a] plus a multiple of the spacing. *)
Lemma redges_In (a b e : R) (num : nat) :
  In e (redges a b num) ->
  exists i, i < num /\ e = (a + INR i * ((b - a) / INR (num - 1)))%R.
Proof.
  unfold redges. intros He. apply in_map_iff in He.
  destruct He as (i & <- & Hi). apply in_seq in Hi.
  exists i. split; [lia | reflexivity].
Qed.

(** * The monotonicity test on sorted finite edges *)

Lemma no_descent_sorted (l : list R) :
  forall y, StronglySorted Rle (y :: l) ->
  no_descent (F64.Fin y) (map F64.Fin l) = true.
Proof.
  induction l as [|z l IH]; intros y Hs; simpl.
  - reflexivity.
  - inversion Hs as [|? ? Hs' Hall]; subst.
    inversion Hall as [|? ? Hyz _]; subst.
    rewrite Rltb_false by lra. now apply IH.
Qed.

Lemma monotonicity_sorted (l : list R) :
  StronglySorted Rle l -> monotonicity (map F64.Fin l) = 1%Z.
Proof.
  destruct l as [|x rest]; [reflexivity|].
  intros Hs. inversion Hs as [|? ? Hrest Hall]; subst. clear Hs.
  unfold monotonicity. cbn [map].
  induction rest as [|y rest IH]; [reflexivity|].
  inversion Hrest as [|? ? Hrest' Hall']; subst.
  inversion Hall as [|? ? Hxy Hall'']; subst.
  cbn [map skip_repeated F64.eqb].
  destruct (Reqb y x) eqn:Heq.
  - now apply IH.
  - rewrite ltb_fin, Rltb_true.
    + now rewrite no_descent_sorted.
    + assert (y <> x) by (intros ->; rewrite Reqb_true in Heq; congruence). lra.
Qed.

(** * [searchsorted] and [digitize] *)

Lemma searchsorted_right_range (a : list F64.t) (v : F64.t) :
  (0 <= searchsorted_right a v <= Z.of_nat (length a))%Z.
Proof.
  unfold searchsorted_right.
  pose proof (filter_length_le (fun e => negb (np_lt v e)) a). lia.
Qed.

(** Whenever [digitize] returns, it returns one index per sample, each
    between [0] and the number of edges. *)
Lemma digitize_range (x bins : list F64.t) (idx : list Z) :
  digitize x bins = Ok idx ->
  length idx = length x
  /\ Forall (fun i => 0 <= i <= Z.of_nat (length bins))%Z idx.
Proof.
  unfold digitize.
  destruct (monotonicity bins =? 0)%Z; [discriminate|].
  destruct (monotonicity bins =? -1)%Z; intros H; injection H as <-;
    (split; [apply length_map|]); rewrite Forall_forall; intros i Hi;
    apply in_map_iff in Hi; destruct Hi as (v & <- & _).
  - pose proof (searchsorted_right_range (rev bins) v) as Hr.
    rewrite length_rev in Hr. lia.
  - apply searchsorted_right_range.
Qed.

Lemma digitize_sorted (x : list F64.t) (l : list R) :
  StronglySorted Rle l ->
  digitize x (map F64.Fin l) = Ok (map (searchsorted_right (map F64.Fin l)) x).
Proof.
  intros Hs. unfold digitize. now rewrite (monotonicity_sorted Hs).
Qed.

(** * [linspace] when an end is not finite

    When the minimum or the maximum is [nan] or infinite, the first edge is
    [nan], the inner edges are all equal and the last edge is [stop].  The
    monotonicity test compares with [nan] first and takes such edges for a
    decreasing array. *)

Lemma set_last_length (y : list F64.t) (stop : F64.t) :
  length (set_last y stop) = length y.
Proof.
  destruct y as [|x y]; [reflexivity|].
  destruct (exists_last (l := x :: y)) as (y' & z & ->); [discriminate|].
  rewrite set_last_snoc, !length_app. reflexivity.
Qed.

Lemma linspace_length (start stop : F64.t) (num : nat) (bins : list F64.t) :
  linspace start stop (Z.of_nat num) = Ok bins -> length bins = num.
Proof.
  unfold linspace, arange.
  replace (Z.of_nat num <? 0)%Z with false by (symmetry; apply Z.ltb_ge; lia).
  rewrite Nat2Z.id. intros H. injection H as <-.
  destruct (1 <? Z.of_nat num)%Z; [rewrite set_last_length|];
    destruct (0 <? Z.of_nat num - 1)%Z;
    try destruct (F64.eqb _ _);
    now rewrite !length_map, length_seq.
Qed.

Lemma linspace_negative (start stop : F64.t) (num : Z) :
  (num < 0)%Z -> linspace start stop num = Raise ValueError.
Proof.
  intros H. unfold linspace. now rewrite (proj2 (Z.ltb_lt num 0) H).
Qed.

(** An empty scale asks [linspace] for [-1] points. *)
Lemma freqMap_empty_scale (A : Type) (data : list F64.t) (log inv : bool) (offset : Z) :
  freqMap data (@nil A) log inv offset = Raise ValueError.
Proof.
  unfold freqMap, bin_indices. cbn [length Z.of_nat].
  destruct log; now rewrite linspace_negative by lia.
Qed.

Lemma map_seq_const (f : nat -> F64.t) (c : F64.t) (n : nat) :
  (forall i, 0 < i -> f i = c) ->
  forall s, 0 < s -> map f (seq s n) = repeat c n.
Proof.
  intros Hf. induction n as [|n IH]; intros s Hs; simpl.
  - reflexivity.
  - rewrite Hf by exact Hs. f_equal. apply IH. lia.
Qed.

Lemma div_special (delta : F64.t) (k : nat) :
  ~ F64.finite delta -> 0 < k ->
  F64.div delta (F64.of_Z (Z.of_nat k)) = delta.
Proof.
  intros Hd Hk. unfold F64.of_Z.
  assert (0 < IZR (Z.of_nat k))%R by (apply IZR_lt; lia).
  destruct delta; simpl in *; try reflexivity; try tauto;
    now rewrite Rltb_false by lra.
Qed.

Lemma mul_zero_special (delta : F64.t) :
  ~ F64.finite delta -> F64.mul (F64.of_nat 0) delta = F64.NaN.
Proof.
  intros Hd. unfold F64.of_nat, F64.of_Z.
  destruct delta; simpl in *; try reflexivity; try tauto;
    now rewrite Reqb_true by reflexivity.
Qed.

Lemma mul_pos_special (delta : F64.t) (i : nat) :
  ~ F64.finite delta -> 0 < i -> F64.mul (F64.of_nat i) delta = delta.
Proof.
  intros Hd Hi. unfold F64.of_nat, F64.of_Z.
  assert (0 < IZR (Z.of_nat i))%R by (apply IZR_lt; lia).
  destruct delta; simpl in *; try reflexivity; try tauto;
    rewrite Reqb_false by lra; now rewrite Rltb_false by lra.
Qed.

Lemma sub_special (start stop : F64.t) :
  ~ (F64.finite start /\ F64.finite stop) -> ~ F64.finite (F64.sub stop start).
Proof. destruct start, stop; simpl; tauto. Qed.

Lemma inner_edge_special (start stop : F64.t) :
  ~ (F64.finite start /\ F64.finite stop) ->
  F64.ltb (F64.add (F64.sub stop start) start) stop = false.
Proof. destruct start, stop; simpl; try reflexivity; tauto. Qed.

Lemma add_nan_l (x : F64.t) : F64.add F64.NaN x = F64.NaN.
Proof. reflexivity. Qed.

Lemma eqb_nan_r (x : F64.t) : F64.eqb x F64.NaN = false.
Proof. now destruct x. Qed.

Lemma no_ascent_repeat (c stop : F64.t) (k : nat) :
  F64.ltb c stop = false -> no_ascent c (repeat c k ++ [stop]) = true.
Proof.
  intros Hc. induction k as [|k IH]; simpl.
  - now rewrite Hc.
  - now rewrite ltb_irrefl.
Qed.

Lemma monotonicity_nan_head (c stop : F64.t) (k : nat) :
  F64.ltb c stop = false ->
  monotonicity (F64.NaN :: repeat c k ++ [stop]) = (-1)%Z.
Proof.
  intros Hc. unfold monotonicity.
  destruct k as [|k]; cbn [repeat app skip_repeated]; rewrite eqb_nan_r;
    cbn [F64.ltb].
  - reflexivity.
  - now rewrite no_ascent_repeat.
Qed.

(** The shape of the edges when an end is not finite. *)
Lemma linspace_special_shape (start stop : F64.t) (num : nat) :
  ~ (F64.finite start /\ F64.finite stop) ->
  exists bins,
    linspace start stop (Z.of_nat num) = Ok bins
    /\ (bins = [] \/ bins = [F64.NaN]
        \/ exists k, bins = F64.NaN
                            :: repeat (F64.add (F64.sub stop start) start) k ++ [stop]).
Proof.
  intros Hns.
  assert (Hd := sub_special _ _ Hns).
  unfold linspace, arange.
  replace (Z.of_nat num <? 0)%Z with false by (symmetry; apply Z.ltb_ge; lia).
  rewrite Nat2Z.id.
  destruct num as [|[|m]].
  - eexists. split; [reflexivity|]. now left.
  - change (0 <? Z.of_nat 1 - 1)%Z with false.
    change (1 <? Z.of_nat 1)%Z with false.
    cbn [seq map]. rewrite mul_zero_special by exact Hd.
    rewrite add_nan_l.
    eexists. split; [reflexivity|]. right. now left.
  - replace (0 <? Z.of_nat (S (S m)) - 1)%Z with true by (symmetry; apply Z.ltb_lt; lia).
    replace (1 <? Z.of_nat (S (S m)))%Z with true by (symmetry; apply Z.ltb_lt; lia).
    replace (Z.of_nat (S (S m)) - 1)%Z with (Z.of_nat (S m)) by lia.
    rewrite div_special by (exact Hd || lia).
    replace (F64.eqb (F64.sub stop start) (F64.Fin 0)) with false
      by (destruct (F64.sub stop start); simpl in *; tauto).
    rewrite !map_map. change (seq 0 (S (S m))) with (0 :: seq 1 (S m)).
    cbn [map]. rewrite mul_zero_special by exact Hd.
    rewrite (@map_seq_const _ (F64.add (F64.sub stop start) start))
      by (try lia; intros i Hi; now rewrite mul_pos_special).
    rewrite add_nan_l. cbn [repeat].
    rewrite repeat_cons, app_comm_cons, set_last_snoc.
    eexists. split; [reflexivity|].
    right. right. exists m. now rewrite <- app_comm_cons.
Qed.

Lemma linspace_special (start stop : F64.t) (num : nat) :
  ~ (F64.finite start /\ F64.finite stop) ->
  exists bins,
    linspace start stop (Z.of_nat num) = Ok bins
    /\ monotonicity bins <> 0%Z.
Proof.
  intros Hns.
  destruct (@linspace_special_shape start stop num Hns) as (bins & Hl & Hshape).
  exists bins. split; [exact Hl|].
  destruct Hshape as [-> | [-> | [k ->]]]; try discriminate.
  rewrite monotonicity_nan_head by now apply inner_edge_special.
  discriminate.
Qed.

(** * [freqMap] never raises on a scale that is not empty *)

Lemma digitize_ok (x bins : list F64.t) :
  monotonicity bins <> 0%Z ->
  exists g, digitize x bins = Ok (map g x).
Proof.
  intros Hm. unfold digitize.
  rewrite (proj2 (Z.eqb_neq _ _) Hm).
  destruct (monotonicity bins =? -1)%Z; eexists; reflexivity.
Qed.

Lemma log_fin_inv (x : F64.t) (r : R) :
  F64.log x = F64.Fin r -> exists r', x = F64.Fin r' /\ (0 < r')%R /\ r = ln r'.
Proof.
  destruct x as [| | |r']; simpl; try discriminate.
  destruct (Rltb 0 r') eqn:Hpos.
  - intros H. injection H as <-. exists r'. apply Rltb_spec in Hpos. auto.
  - destruct (Reqb r' 0); discriminate.
Qed.

Lemma log_fin (r : R) : (0 < r)%R -> F64.log (F64.Fin r) = F64.Fin (ln r).
Proof. intros H. simpl. now rewrite Rltb_true. Qed.

Lemma ln_le (a b : R) : (0 < a)%R -> (a <= b)%R -> (ln a <= ln b)%R.
Proof.
  intros Ha [Hlt | ->]; [|lra].
  left. now apply ln_increasing.
Qed.

(** The edges and the indices, for any two ends in the right order. *)
Lemma edges_digitize_total (start stop : F64.t) (num : nat) (x : list F64.t) :
  (forall a b, start = F64.Fin a -> stop = F64.Fin b -> (a <= b)%R) ->
  exists bins g,
    linspace start stop (Z.of_nat num) = Ok bins
    /\ digitize x bins = Ok (map g x)
    /\ Forall (fun i => 0 <= i <= Z.of_nat num)%Z (map g x).
Proof.
  intros Hord.
  assert (Hcase : (exists a b, start = F64.Fin a /\ stop = F64.Fin b)
                  \/ ~ (F64.finite start /\ F64.finite stop)).
  { destruct start, stop; simpl; try (right; tauto). left; eauto. }
  destruct Hcase as [(a & b & -> & ->) | Hns].
  - assert (Hab : (a <= b)%R) by now apply Hord.
    exists (map F64.Fin (redges a b num)), (searchsorted_right (map F64.Fin (redges a b num))).
    split; [apply linspace_fin|].
    pose proof (digitize_sorted x (redges_sorted num Hab)) as Hd.
    split; [exact Hd|].
    apply digitize_range in Hd. destruct Hd as [_ Hd].
    now rewrite length_map, redges_length in Hd.
  - destruct (@linspace_special start stop num Hns) as (bins & Hl & Hm).
    destruct (@digitize_ok x bins Hm) as (g & Hd).
    exists bins, g. split; [exact Hl|]. split; [exact Hd|].
    apply digitize_range in Hd. destruct Hd as [_ Hd].
    now rewrite (linspace_length _ _ _ Hl) in Hd.
Qed.

(** One index per sample, each a function of its sample alone once the
    edges are fixed, and each a position of the scale. *)
Lemma bin_indices_total (A : Type) (data : list F64.t) (freq : list A) (log : bool) :
  freq <> [] ->
  exists g,
    bin_indices data freq log = Ok (map g data)
    /\ Forall (fun i => 0 <= i < Z.of_nat (length freq))%Z (map g data).
Proof.
  intros Hfreq.
  assert (Hlen : (Z.of_nat (length freq) - 1)%Z = Z.of_nat (length freq - 1)).
  { destruct freq; [congruence | simpl length; lia]. }
  assert (Hpos : 0 < length freq) by (destruct freq; [congruence | simpl; lia]).
  unfold bin_indices. rewrite Hlen. destruct log.
  - destruct (@edges_digitize_total (F64.log (series_min data)) (F64.log (series_max data))
                (length freq - 1) (map F64.log data)) as (bins & g & Hl & Hd & Hr).
    { intros a b Ha Hb.
      apply log_fin_inv in Ha, Hb.
      destruct Ha as (a' & Ha & Hpa & ->), Hb as (b' & Hb & Hpb & ->).
      apply ln_le; [exact Hpa|]. exact (series_min_le_max data Ha Hb). }
    exists (fun v => g (F64.log v)).
    rewrite Hl. cbn [bind]. rewrite Hd, map_map in *. split; [reflexivity|].
    eapply Forall_impl; [|exact Hr]. cbv beta. intros i Hi. lia.
  - destruct (@edges_digitize_total (series_min data) (series_max data)
                (length freq - 1) data) as (bins & g & Hl & Hd & Hr).
    { intros a b Ha Hb. exact (series_min_le_max data Ha Hb). }
    exists g. rewrite Hl. cbn [bind]. rewrite Hd. split; [reflexivity|].
    eapply Forall_impl; [|exact Hr]. cbv beta. intros i Hi. lia.
Qed.

Lemma getitem_in_range (A : Type) (freq : list A) (i : Z) :
  (0 <= i < Z.of_nat (length freq))%Z ->
  exists p, getitem freq i = Ok p /\ entry freq i = Some p /\ In p freq.
Proof.
  intros Hi. unfold getitem, entry. cbv zeta.
  assert (H1 : (i <? 0)%Z = false) by (apply Z.ltb_ge; lia).
  assert (H2 : (Z.of_nat (length freq) <=? i)%Z = false) by (apply Z.leb_gt; lia).
  rewrite H1. cbv iota. rewrite H1, H2. cbn [orb].
  destruct (nth_error freq (Z.to_nat i)) as [p|] eqn:Hn.
  - exists p. split; [reflexivity|]. split; [reflexivity|].
    eapply nth_error_In; eassumption.
  - apply nth_error_None in Hn. lia.
Qed.

Lemma mapM_getitem (A : Type) (freq : list A) (idx : list Z) :
  Forall (fun i => 0 <= i < Z.of_nat (length freq))%Z idx ->
  exists out,
    mapM (getitem freq) idx = Ok out
    /\ Forall2 (fun i p => entry freq i = Some p) idx out
    /\ Forall (fun p => In p freq) out.
Proof.
  induction 1 as [|i idx Hi _ IH].
  - exists []. repeat split; constructor.
  - destruct IH as (out & Hm & Hal & Hin).
    destruct (getitem_in_range freq Hi) as (p & Hg & He & Hp).
    exists (p :: out). cbn [mapM]. rewrite Hg. cbn [bind]. rewrite Hm. cbn [bind].
    repeat split; constructor; assumption.
Qed.

(** The quantizer is total on every scale with at least one entry: it
    returns, for each sample and in the order of the samples, the entry of
    the scale at the index of the sample. *)
Lemma freqMap_total (A : Type) (data : list F64.t) (freq : list A)
    (log inv : bool) (offset : Z) :
  freq <> [] ->
  exists g out,
    bin_indices data freq log = Ok (map g data)
    /\ freqMap data freq log inv offset = Ok out
    /\ Forall2 (fun i p => entry freq i = Some p) (map g data) out
    /\ Forall (fun p => In p freq) out.
Proof.
  intros Hfreq.
  destruct (@bin_indices_total A data freq log Hfreq) as (g & Hb & Hr).
  destruct (mapM_getitem freq Hr) as (out & Hm & Hal & Hin).
  exists g, out. unfold freqMap. rewrite Hb. cbn [bind]. auto.
Qed.

(** * What [searchsorted] is given, and what it returns

    [searchsorted] is specified on sorted arrays only.  The edges that
    [freqMap] builds are always sorted, in numpy's order, in the direction
    in which [digitize] searches them; on such an array the count of
    [searchsorted_right] is the insertion point: every element before it is
    at most the key and every element from it on is above the key. *)

Lemma np_lt_above (v e1 e2 : F64.t) :
  np_lt v e1 = true -> np_lt e2 e1 = false -> np_lt v e2 = true.
Proof.
  unfold np_lt.
  destruct v, e1, e2; cbn; try reflexivity; try discriminate;
    rewrite ?orb_false_r; intros H1 H2.
  apply Rltb_spec in H1. apply Rltb_nspec in H2. apply Rltb_spec. lra.
Qed.

Lemma searchsorted_right_insertion (a : list F64.t) (v : F64.t) :
  np_sorted a ->
  let i := Z.to_nat (searchsorted_right a v) in
  Forall (fun e => np_lt v e = false) (firstn i a)
  /\ Forall (fun e => np_lt v e = true) (skipn i a).
Proof.
  unfold searchsorted_right. rewrite Nat2Z.id.
  induction 1 as [|e a Hs IH Hall]; cbn [filter].
  - split; constructor.
  - destruct (np_lt v e) eqn:Hve; cbn [negb].
    + assert (Hrest : Forall (fun e' => np_lt v e' = true) a).
      { eapply Forall_impl; [|exact Hall]. cbv beta. intros e' He'.
        exact (np_lt_above _ _ _ Hve He'). }
      assert (Hnone : filter (fun e0 => negb (np_lt v e0)) a = []).
      { clear -Hrest. induction Hrest as [|e' a He' _ IH]; [reflexivity|].
        cbn [filter]. now rewrite He'. }
      rewrite Hnone. cbn [length firstn skipn].
      split; constructor; assumption.
    + cbn [length firstn skipn]. destruct IH as [IH1 IH2].
      split; [constructor|]; assumption.
Qed.

Lemma np_sorted_fin (l : list R) :
  StronglySorted Rle l -> np_sorted (map F64.Fin l).
Proof.
  unfold np_sorted. induction 1 as [|x l Hs IH Hall]; cbn [map]; constructor.
  - exact IH.
  - rewrite Forall_forall in *. intros y Hy.
    apply in_map_iff in Hy. destruct Hy as (r & <- & Hr).
    unfold np_lt. cbn. rewrite orb_false_r. apply Rltb_false.
    specialize (Hall r Hr). lra.
Qed.

Lemma np_lt_nan_l (y : F64.t) : np_lt F64.NaN y = false.
Proof. unfold np_lt. cbn. now rewrite andb_false_r. Qed.

Lemma np_lt_irrefl (x : F64.t) : np_lt x x = false.
Proof. unfold np_lt. rewrite ltb_irrefl. now destruct x. Qed.

Lemma inner_edge_np (start stop : F64.t) :
  ~ (F64.finite start /\ F64.finite stop) ->
  np_lt (F64.add (F64.sub stop start) start) stop = false.
Proof. destruct start, stop; simpl; try reflexivity; tauto. Qed.

Lemma np_sorted_tail (c : F64.t) (k : nat) : np_sorted (repeat c k ++ [F64.NaN]).
Proof.
  unfold np_sorted. induction k as [|k IH]; cbn [repeat app].
  - repeat constructor.
  - constructor; [exact IH|].
    apply Forall_app. split.
    + rewrite Forall_forall. intros y Hy. apply repeat_spec in Hy. subst y.
      apply np_lt_irrefl.
    + repeat constructor. apply np_lt_nan_l.
Qed.

Lemma np_sorted_special (c stop : F64.t) (k : nat) :
  np_lt c stop = false -> np_sorted (stop :: repeat c k ++ [F64.NaN]).
Proof.
  intros Hc. constructor; [apply np_sorted_tail|].
  apply Forall_app. split.
  - rewrite Forall_forall. intros y Hy. apply repeat_spec in Hy. now subst y.
  - repeat constructor. apply np_lt_nan_l.
Qed.

Lemma rev_special (c stop : F64.t) (k : nat) :
  rev (F64.NaN :: repeat c k ++ [stop]) = stop :: repeat c k ++ [F64.NaN].
Proof.
  cbn [rev]. rewrite rev_app_distr. cbn [rev app]. f_equal. f_equal.
  induction k as [|k IH]; [reflexivity|].
  cbn [repeat rev]. rewrite IH. symmetry. apply repeat_cons.
Qed.

(** The edges between two ends in the right order are sorted in the
    direction in which they are searched. *)
Lemma edges_searched_sorted (start stop : F64.t) (num : nat) (bins : list F64.t) :
  (forall a b, start = F64.Fin a -> stop = F64.Fin b -> (a <= b)%R) ->
  linspace start stop (Z.of_nat num) = Ok bins ->
  np_sorted (searched bins).
Proof.
  intros Hord Hl.
  assert (Hcase : (exists a b, start = F64.Fin a /\ stop = F64.Fin b)
                  \/ ~ (F64.finite start /\ F64.finite stop)).
  { destruct start, stop; simpl; try (right; tauto). left; eauto. }
  destruct Hcase as [(a & b & -> & ->) | Hns].
  - assert (Hab : (a <= b)%R) by now apply Hord.
    rewrite linspace_fin in Hl. injection Hl as <-.
    unfold searched. rewrite monotonicity_sorted by now apply redges_sorted.
    cbn [Z.eqb]. now apply np_sorted_fin, redges_sorted.
  - destruct (@linspace_special_shape start stop num Hns) as (bins' & Hl' & Hshape).
    rewrite Hl in Hl'. injection Hl' as <-. unfold searched.
    destruct Hshape as [-> | [-> | [k ->]]].
    + constructor.
    + repeat constructor.
    + rewrite monotonicity_nan_head by now apply inner_edge_special.
      cbn [Z.eqb]. rewrite rev_special.
      now apply np_sorted_special, inner_edge_np.
Qed.

(** The edges of [freqMap] are sorted where they are searched, on every
    series, scale and mode. *)
Lemma freqMap_edges_sorted (A : Type) (data : list F64.t) (freq : list A)
    (log : bool) (bins : list F64.t) :
  linspace (key log (series_min data)) (key log (series_max data))
    (Z.of_nat (length freq) - 1) = Ok bins ->
  np_sorted (searched bins).
Proof.
  intros Hl.
  destruct freq as [|p freq].
  - now rewrite linspace_negative in Hl by (simpl; lia).
  - replace (Z.of_nat (length (p :: freq)) - 1)%Z with (Z.of_nat (length freq)) in Hl
      by (simpl length; lia).
    apply (@edges_searched_sorted _ _ _ bins) in Hl; [exact Hl|].
    intros a b Ha Hb. destruct log; cbn [key] in Ha, Hb.
    + apply log_fin_inv in Ha, Hb.
      destruct Ha as (a' & Ha & Hpa & ->), Hb as (b' & Hb & Hpb & ->).
      apply ln_le; [exact Hpa|]. exact (series_min_le_max data Ha Hb).
    + exact (series_min_le_max data Ha Hb).
Qed.

Lemma freqMap_of_indices (A : Type) (data : list F64.t) (freq : list A)
    (log inv : bool) (offset : Z) (idx : list Z) :
  freq <> [] ->
  bin_indices data freq log = Ok idx ->
  length idx = length data
  /\ Forall (fun i => 0 <= i < Z.of_nat (length freq))%Z idx
  /\ exists out,
       freqMap data freq log inv offset = Ok out
       /\ Forall2 (fun i p => entry freq i = Some p) idx out
       /\ Forall (fun p => In p freq) out.
Proof.
  intros Hfreq Hb.
  destruct (@bin_indices_total A data freq log Hfreq) as (g & Hb' & Hr).
  rewrite Hb in Hb'. injection Hb' as ->.
  split; [apply length_map|]. split; [exact Hr|].
  destruct (mapM_getitem freq Hr) as (out & Hm & Hal & Hin).
  exists out. unfold freqMap. rewrite Hb. cbn [bind]. auto.
Qed.

(** * The quantizer on a series of finite samples

    In linear mode the samples are compared with the edges as they are; in
    log mode both are taken through the logarithm, which needs positive
    samples to stay finite. *)

Lemma series_min_finite (data : list F64.t) :
  data <> [] -> Forall F64.finite data ->
  exists a, series_min data = F64.Fin a
            /\ In (F64.Fin a) data
            /\ forall r, In (F64.Fin r) data -> (a <= r)%R.
Proof.
  intros Hne Hfin. rewrite Forall_forall in Hfin.
  destruct (series_min_spec data) as [[_ Hall] | (_ & Hin & Hlow)].
  - destruct data as [|x data]; [congruence|].
    inversion Hall as [|? ? Hx _]; subst.
    specialize (Hfin x (or_introl eq_refl)). destruct x; simpl in *; try tauto; discriminate.
  - pose proof (Hfin _ Hin) as Hf.
    destruct (series_min data) as [| | |a]; simpl in Hf; try tauto.
    exists a. split; [reflexivity|]. split; [exact Hin|].
    intros r Hr. specialize (Hlow _ Hr). now apply Rltb_nspec in Hlow.
Qed.

Lemma series_max_finite (data : list F64.t) :
  data <> [] -> Forall F64.finite data ->
  exists b, series_max data = F64.Fin b
            /\ In (F64.Fin b) data
            /\ forall r, In (F64.Fin r) data -> (r <= b)%R.
Proof.
  intros Hne Hfin. rewrite Forall_forall in Hfin.
  destruct (series_max_spec data) as [[_ Hall] | (_ & Hin & Hup)].
  - destruct data as [|x data]; [congruence|].
    inversion Hall as [|? ? Hx _]; subst.
    specialize (Hfin x (or_introl eq_refl)). destruct x; simpl in *; try tauto; discriminate.
  - pose proof (Hfin _ Hin) as Hf.
    destruct (series_max data) as [| | |b]; simpl in Hf; try tauto.
    exists b. split; [reflexivity|]. split; [exact Hin|].
    intros r Hr. specialize (Hup _ Hr). now apply Rltb_nspec in Hup.
Qed.

Lemma searchsorted_fin (l : list R) (r : R) :
  searchsorted_right (map F64.Fin l) (F64.Fin r) = Z.of_nat (count_le l r).
Proof.
  unfold searchsorted_right, count_le. f_equal.
  induction l as [|e l IH]; [reflexivity|].
  cbn [map filter]. unfold np_lt at 1. cbn [F64.ltb F64.is_nan andb].
  rewrite orb_false_r. destruct (negb (Rltb r e)); cbn [length]; now rewrite IH.
Qed.

Lemma space_mono (log : bool) (a b : R) :
  (log = true -> (0 < a)%R) -> (a <= b)%R -> (space log a <= space log b)%R.
Proof.
  intros Hpos Hab. destruct log; simpl; [|exact Hab].
  apply ln_le; auto.
Qed.

Lemma key_fin (log : bool) (r : R) :
  (log = true -> (0 < r)%R) -> key log (F64.Fin r) = F64.Fin (space log r).
Proof.
  intros Hpos. destruct log; [|reflexivity].
  unfold key, space. now apply log_fin, Hpos.
Qed.

(** The indices of a series whose minimum [a] and maximum [b] are finite
    (and positive in log mode): each sample is counted against the edges
    between [a] and [b]. *)
Lemma bin_indices_fin (A : Type) (data : list F64.t) (freq : list A)
    (log : bool) (a b : R) :
  freq <> [] ->
  series_min data = F64.Fin a -> series_max data = F64.Fin b ->
  (log = true -> (0 < a)%R) ->
  bin_indices data freq log
  = Ok (map (fun v => searchsorted_right
                        (map F64.Fin (redges (space log a) (space log b) (length freq - 1)))
                        (key log v)) data).
Proof.
  intros Hfreq Hmin Hmax Hpos.
  assert (Hlen : (Z.of_nat (length freq) - 1)%Z = Z.of_nat (length freq - 1)).
  { destruct freq; [congruence | simpl length; lia]. }
  assert (Hab : (a <= b)%R) by exact (series_min_le_max data Hmin Hmax).
  assert (Hs := @space_mono log a b Hpos Hab).
  unfold bin_indices. rewrite Hlen, Hmin, Hmax.
  destruct log; cbn [space key] in *.
  - rewrite !log_fin by (specialize (Hpos eq_refl); lra).
    rewrite linspace_fin. cbn [bind].
    rewrite digitize_sorted by now apply redges_sorted.
    now rewrite map_map.
  - rewrite linspace_fin. cbn [bind].
    now rewrite digitize_sorted by now apply redges_sorted.
Qed.

(** ** Counting the edges that are not above a sample *)

Lemma count_le_all (l : list R) (r : R) :
  Forall (fun e => (e <= r)%R) l -> count_le l r = length l.
Proof.
  unfold count_le. induction 1 as [|e l He _ IH]; [reflexivity|].
  cbn [filter]. rewrite Rltb_false by lra. cbn [negb length]. now rewrite IH.
Qed.

(** On a constant series every edge is the sample itself. *)
Lemma count_le_redges_const (c : R) (n : nat) :
  count_le (redges c c n) c = n.
Proof.
  rewrite count_le_all; [apply redges_length|].
  rewrite Forall_forall. intros e He.
  apply redges_In in He. destruct He as (i & _ & ->).
  unfold Rdiv, Rminus. rewrite Rplus_opp_r, Rmult_0_l, Rmult_0_r. lra.
Qed.

(** * Alignment of the output with the series *)

Lemma Forall2_same_length (A B : Type) (R : A -> B -> Prop) (l : list A) (out : list B) :
  Forall2 R l out -> length out = length l.
Proof. induction 1; simpl; congruence. Qed.

Lemma Forall2_repeat_l (A B : Type) (R : A -> B -> Prop) (a : A) (b : B) (n : nat)
    (out : list B) :
  (forall b', R a b' -> b' = b) ->
  Forall2 R (repeat a n) out -> out = repeat b n.
Proof.
  intros Hfun. revert out. induction n as [|n IH]; intros out H; inversion H; subst.
  - reflexivity.
  - cbn [repeat]. f_equal; auto.
Qed.

(** * Constant series *)

Lemma constant_series_ends (data : list F64.t) (c : R) :
  data <> [] -> Forall (fun x => x = F64.Fin c) data ->
  series_min data = F64.Fin c /\ series_max data = F64.Fin c.
Proof.
  intros Hne Hall.
  assert (Hfin : Forall F64.finite data).
  { eapply Forall_impl; [|exact Hall]. now intros x ->. }
  rewrite Forall_forall in Hall.
  destruct (series_min_finite Hne Hfin) as (a & Ha & Hina & _).
  destruct (series_max_finite Hne Hfin) as (b & Hb & Hinb & _).
  now rewrite Ha, Hb, (Hall _ Hina), (Hall _ Hinb).
Qed.

(** C1 (as the code has it). For every constant series (positive in log
    mode) and every scale that is not empty, [freqMap] raises nothing and
    maps every sample to one entry of the scale, the last one: all edges
    coincide with the samples, and a sample equal to an edge falls to the
    bin above it.  On a scale of two entries that is index [1], and the
    series [5, 5, 5] against [60, 64, 67] gives [67] three times. *)
Theorem freqMap_constant_last (A : Type) (data : list F64.t) (freq : list A)
    (log inv : bool) (offset : Z) (c : R) :
  data <> [] ->
  Forall (fun x => x = F64.Fin c) data ->
  (log = true -> (0 < c)%R) ->
  freq <> [] ->
  exists p,
    nth_error freq (length freq - 1) = Some p
    /\ bin_indices data freq log
       = Ok (repeat (Z.of_nat (length freq - 1)) (length data))
    /\ freqMap data freq log inv offset = Ok (repeat p (length data)).
Proof.
  intros Hne Hall Hpos Hfreq.
  destruct (constant_series_ends Hne Hall) as [Hmin Hmax].
  assert (Hb : bin_indices data freq log
               = Ok (repeat (Z.of_nat (length freq - 1)) (length data))).
  { rewrite (@bin_indices_fin A data freq log c c Hfreq Hmin Hmax Hpos). f_equal.
    clear Hne Hmin Hmax.
    induction Hall as [|x data -> _ IH]; [reflexivity|].
    cbn [map length repeat]. rewrite IH. f_equal.
    rewrite key_fin by exact Hpos.
    now rewrite searchsorted_fin, count_le_redges_const. }
  destruct (@freqMap_of_indices A data freq log inv offset _ Hfreq Hb)
    as (_ & Hr & out & Hf & Hal & _).
  assert (Hi : (0 <= Z.of_nat (length freq - 1) < Z.of_nat (length freq))%Z).
  { destruct freq; [congruence | simpl length; lia]. }
  destruct (getitem_in_range freq Hi) as (p & _ & He & _).
  exists p. split.
  - unfold entry in He.
    replace (Z.of_nat (length freq - 1) <? 0)%Z with false in He
      by (symmetry; apply Z.ltb_ge; lia).
    now rewrite Nat2Z.id in He.
  - split; [exact Hb|]. rewrite Hf. f_equal.
    apply (@Forall2_repeat_l Z A (fun i q => entry freq i = Some q)
             (Z.of_nat (length freq - 1)) p (length data) out); [|exact Hal].
    intros q Hq. congruence.
Qed.

(** * Membership in the output *)

Lemma Forall2_In_r (A B : Type) (R : A -> B -> Prop) (l : list A) (out : list B) (b : B) :
  Forall2 R l out -> In b out -> exists a, In a l /\ R a b.
Proof.
  induction 1 as [|x y l out Hxy _ IH]; intros Hin; [contradiction|].
  destruct Hin as [<- | Hin].
  - exists x. split; [now left | exact Hxy].
  - destruct (IH Hin) as (a & Ha & HR). exists a. split; [now right | exact HR].
Qed.

(** * Log mode and samples that are not positive *)

Lemma log_nonpositive (r : R) : (r <= 0)%R -> ~ F64.finite (F64.log (F64.Fin r)).
Proof.
  intros Hr. simpl. rewrite Rltb_false by lra.
  now destruct (Reqb r 0).
Qed.

(** C6 (as the code has it). In log mode a zero or negative sample raises
    nothing: its logarithm is [-inf] or [nan] (numpy only warns), and
    [freqMap] still returns one entry of the scale for every sample of the
    series, the offending one included. *)
Theorem freqMap_log_nonpositive (A : Type) (data : list F64.t) (freq : list A)
    (inv : bool) (offset : Z) (r : R) :
  In (F64.Fin r) data ->
  (r <= 0)%R ->
  freq <> [] ->
  ~ F64.finite (F64.log (F64.Fin r))
  /\ exists out,
       freqMap data freq true inv offset = Ok out
       /\ length out = length data
       /\ Forall (fun p => In p freq) out.
Proof.
  intros _ Hr Hfreq. split; [now apply log_nonpositive|].
  destruct (@freqMap_total A data freq true inv offset Hfreq) as (g & out & _ & Hf & Hal & Hin).
  exists out. split; [exact Hf|]. split; [|exact Hin].
  rewrite (Forall2_same_length Hal). apply length_map.
Qed.

(** * Concrete runs *)

Lemma ln_2_pos : (0 < ln 2)%R.
Proof. pose proof ln_lt_2. lra. Qed.

Lemma ln_4 : ln 4 = (2 * ln 2)%R.
Proof. replace 4%R with (2 * 2)%R by lra. rewrite ln_mult by lra. lra. Qed.

Lemma ln_8 : ln 8 = (3 * ln 2)%R.
Proof. replace 8%R with (2 * 4)%R by lra. rewrite ln_mult, ln_4 by lra. lra. Qed.

Lemma ln_16 : ln 16 = (4 * ln 2)%R.
Proof. replace 16%R with (2 * 8)%R by lra. rewrite ln_mult, ln_8 by lra. lra. Qed.

(** Bring the logarithms of the powers of two into the context. *)
Ltac ln_facts :=
  pose proof ln_1; pose proof ln_2_pos; pose proof ln_4; pose proof ln_8;
  pose proof ln_16.

(** The series [5, 5, 5] on the scale [60, 64, 67]: the last entry, in
    either mode. *)
Lemma freqMap_constant_run (log : bool) :
  freqMap [F64.Fin 5; F64.Fin 5; F64.Fin 5] [60; 64; 67]%Z log false 0
  = Ok [67; 67; 67]%Z.
Proof. destruct log; run_model; reflexivity. Qed.

(** The series [1, 2, 4] on the scale [60, 64, 67], log mode. *)
Lemma freqMap_small_run (inv : bool) (offset : Z) :
  freqMap [F64.Fin 1; F64.Fin 2; F64.Fin 4] [60; 64; 67]%Z true inv offset
  = Ok [64; 64; 67]%Z.
Proof. ln_facts. run_model. reflexivity. Qed.

Lemma freqMap_small_run_reversed :
  freqMap [F64.Fin 1; F64.Fin 2; F64.Fin 4] (rev [60; 64; 67]%Z) true false 0
  = Ok [64; 64; 60]%Z.
Proof. ln_facts. run_model. reflexivity. Qed.

(** The series [0, 1, 2] on the scale [60, 64, 67], log mode. *)
Lemma freqMap_zero_run :
  freqMap [F64.Fin 0; F64.Fin 1; F64.Fin 2] [60; 64; 67]%Z true false 0
  = Ok [67; 67; 64]%Z.
Proof. ln_facts. run_model. reflexivity. Qed.

(** The series [1, 2, 4, 8, 16] on the scale [0, 1, 2, 3, 4], log mode. *)
Lemma bin_indices_powers_run :
  bin_indices [F64.Fin 1; F64.Fin 2; F64.Fin 4; F64.Fin 8; F64.Fin 16]
    [0; 1; 2; 3; 4]%Z true
  = Ok [1; 1; 2; 3; 4]%Z.
Proof. ln_facts. run_model. reflexivity. Qed.

Lemma freqMap_powers_run :
  freqMap [F64.Fin 1; F64.Fin 2; F64.Fin 4; F64.Fin 8; F64.Fin 16]
    [0; 1; 2; 3; 4]%Z true false 0
  = Ok [1; 1; 2; 3; 4]%Z.
Proof. unfold freqMap. rewrite bin_indices_powers_run. reflexivity. Qed.

(** The constant series [5, 5, 5] does not come out as the middle entry
    [64] of [60, 64, 67], in either mode: it comes out as [67]. *)
Lemma freqMap_constant_not_middle :
  freqMap [F64.Fin 5; F64.Fin 5; F64.Fin 5] [60; 64; 67]%Z true false 0
    = Ok [67; 67; 67]%Z
  /\ freqMap [F64.Fin 5; F64.Fin 5; F64.Fin 5] [60; 64; 67]%Z true false 0
    <> Ok [64; 64; 64]%Z
  /\ freqMap [F64.Fin 5; F64.Fin 5; F64.Fin 5] [60; 64; 67]%Z false false 0
    <> Ok [64; 64; 64]%Z.
Proof.
  rewrite !freqMap_constant_run. repeat split; discriminate.
Qed.

(** C4. [freqMap] takes the flag [inv] and never reads it: on the series
    [1, 2, 4] and the scale [60, 64, 67] the call with [inv=True] returns
    [64, 64, 67], the same as without the flag, while the reversed scale
    gives [64, 64, 60]. *)
Theorem freqMap_inv_ignored :
  freqMap [F64.Fin 1; F64.Fin 2; F64.Fin 4] [60; 64; 67]%Z true true 0
    = Ok [64; 64; 67]%Z
  /\ freqMap [F64.Fin 1; F64.Fin 2; F64.Fin 4] (rev [60; 64; 67]%Z) true false 0
    = Ok [64; 64; 60]%Z
  /\ freqMap [F64.Fin 1; F64.Fin 2; F64.Fin 4] [60; 64; 67]%Z true true 0
    <> freqMap [F64.Fin 1; F64.Fin 2; F64.Fin 4] (rev [60; 64; 67]%Z) true false 0.
Proof.
  rewrite freqMap_small_run, freqMap_small_run_reversed.
  repeat split; discriminate.
Qed.

(** C5. [freqMap] takes [offset] and never reads it: on the series
    [1, 2, 4] and the scale [60, 64, 67] the call with [offset=12] returns
    [64, 64, 67], the same as with [offset=0], and not these pitches
    raised by [12]. *)
Theorem freqMap_offset_ignored :
  freqMap [F64.Fin 1; F64.Fin 2; F64.Fin 4] [60; 64; 67]%Z true false 12
    = Ok [64; 64; 67]%Z
  /\ freqMap [F64.Fin 1; F64.Fin 2; F64.Fin 4] [60; 64; 67]%Z true false 0
    = Ok [64; 64; 67]%Z
  /\ freqMap [F64.Fin 1; F64.Fin 2; F64.Fin 4] [60; 64; 67]%Z true false 12
    <> Ok (map (Z.add 12) [64; 64; 67]%Z).
Proof.
  rewrite !freqMap_small_run. repeat split; discriminate.
Qed.

(** C7. The pitches [freqMap] returns are entries of the scale as it is
    passed, not of the scale shifted by [offset]: on the series [1, 2, 4]
    and the scale [60, 64, 67] the call with [offset=12] returns
    [64, 64, 67], one pitch per sample in the order of the samples, and
    none of them is a member of the scale raised by [12]. *)
Theorem freqMap_offset_outside_scale :
  freqMap [F64.Fin 1; F64.Fin 2; F64.Fin 4] [60; 64; 67]%Z true false 12
    = Ok [64; 64; 67]%Z
  /\ map (Z.add 12) [60; 64; 67]%Z = [72; 76; 79]%Z
  /\ Forall (fun p => ~ In p (map (Z.add 12) [60; 64; 67]%Z)) [64; 64; 67]%Z.
Proof.
  rewrite freqMap_small_run. split; [reflexivity|]. split; [reflexivity|].
  repeat constructor; cbn; intros H; repeat destruct H as [H|H]; try discriminate H;
    exact H.
Qed.

(** A zero under log mode raises nothing: [0, 1, 2] comes out as
    [67, 67, 64]. *)
Lemma freqMap_zero_not_raised :
  freqMap [F64.Fin 0; F64.Fin 1; F64.Fin 2] [60; 64; 67]%Z true false 0
    = Ok [67; 67; 64]%Z
  /\ ~ (exists e, freqMap [F64.Fin 0; F64.Fin 1; F64.Fin 2] [60; 64; 67]%Z true false 0
                  = Raise e).
Proof.
  rewrite freqMap_zero_run. split; [reflexivity|].
  intros [e He]. discriminate.
Qed.

(** The first sample of [1, 2, 4, 8, 16] is not given the lowest entry. *)
Lemma freqMap_powers_first_not_lowest :
  ~ (exists out,
       freqMap [F64.Fin 1; F64.Fin 2; F64.Fin 4; F64.Fin 8; F64.Fin 16]
         [0; 1; 2; 3; 4]%Z true false 0 = Ok out
       /\ nondecreasing out
       /\ hd_error out = Some 0%Z
       /\ last out 0%Z = 4%Z).
Proof.
  rewrite freqMap_powers_run. intros (out & Hout & _ & Hhd & _).
  injection Hout as <-. discriminate.
Qed.

(** C9 (as the code has it). The series [1, 2, 4, 8, 16] against the scale
    [0, 1, 2, 3, 4] in log mode gives the bin indices [1, 1, 2, 3, 4]: they
    never decrease, the last sample is pinned to the highest entry [4], and
    the first sample gets the second entry [1], bin [0] being out of
    reach. *)
Theorem freqMap_powers_of_two :
  bin_indices [F64.Fin 1; F64.Fin 2; F64.Fin 4; F64.Fin 8; F64.Fin 16]
    [0; 1; 2; 3; 4]%Z true = Ok [1; 1; 2; 3; 4]%Z
  /\ freqMap [F64.Fin 1; F64.Fin 2; F64.Fin 4; F64.Fin 8; F64.Fin 16]
       [0; 1; 2; 3; 4]%Z true false 0 = Ok [1; 1; 2; 3; 4]%Z
  /\ nondecreasing [1; 1; 2; 3; 4]%Z.
Proof.
  split; [exact bin_indices_powers_run|].
  split; [exact freqMap_powers_run|].
  simpl. repeat split; lia.
Qed.

(** * The quantizer in binary64 *)

Module B64Facts.

Import Floats.
Import B64.

(** ** The order of the binary64 numbers *)

Lemma SFcompare_place (x y : spec_float) :
  x <> S754_nan -> y <> S754_nan ->
  match SFcompare x y with
  | Some Lt => before (place x) (place y)
  | Some Eq => place x = place y
  | Some Gt => before (place y) (place x)
  | None => False
  end.
Proof.
  intros Hx Hy.
  destruct x as [sx|sx| |sx mx ex], y as [sy|sy| |sy my ey]; try congruence;
    try (destruct sx); try (destruct sy); cbn; unfold before; cbn; try lia; try reflexivity.
  - destruct (Z.compare_spec ex ey) as [He|He|He].
    + subst ey. rewrite Pos.compare_cont_spec. cbn.
      destruct (Pos.compare_spec mx my) as [Hm|Hm|Hm]; cbn.
      * now subst.
      * lia.
      * lia.
    + lia.
    + lia.
  - destruct (Z.compare_spec ex ey) as [He|He|He].
    + subst ey. rewrite Pos.compare_cont_spec. cbn.
      destruct (Pos.compare_spec mx my) as [Hm|Hm|Hm]; cbn.
      * now subst.
      * lia.
      * lia.
    + lia.
    + lia.
Qed.

Lemma is_nan_spec (x : float) : is_nan x = true <-> Prim2SF x = S754_nan.
Proof.
  unfold is_nan. rewrite FloatAxioms.eqb_spec. unfold SFeqb.
  destruct (Prim2SF x) as [s|s| |s m e] eqn:E; cbn.
  - split; discriminate.
  - destruct s; split; discriminate.
  - split; reflexivity.
  - destruct s; rewrite Z.compare_refl, Pos.compare_cont_refl; cbn; split; discriminate.
Qed.

Lemma is_nan_false (x : float) : is_nan x = false <-> Prim2SF x <> S754_nan.
Proof.
  rewrite <- is_nan_spec. destruct (is_nan x); split; congruence.
Qed.

Lemma before_irrefl p : ~ before p p.
Proof. unfold before. lia. Qed.

Lemma ltb_iff (x y : float) :
  (x <? y)%float = true <->
  is_nan x = false /\ is_nan y = false /\ before (position x) (position y).
Proof.
  rewrite FloatAxioms.ltb_spec. rewrite !is_nan_false. unfold position, SFltb.
  split.
  - intros H.
    assert (Hx : Prim2SF x <> S754_nan).
    { intros E. rewrite E in H. discriminate. }
    assert (Hy : Prim2SF y <> S754_nan).
    { intros E. rewrite E in H. destruct (Prim2SF x); discriminate. }
    pose proof (SFcompare_place Hx Hy) as Hc.
    destruct (SFcompare (Prim2SF x) (Prim2SF y)) as [[| |]|]; try discriminate.
    auto.
  - intros (Hx & Hy & Hb).
    pose proof (SFcompare_place Hx Hy) as Hc.
    pose proof (@before_irrefl (place (Prim2SF x))).
    destruct (SFcompare (Prim2SF x) (Prim2SF y)) as [[| |]|]; try reflexivity.
    + rewrite <- Hc in Hb. contradiction.
    + exfalso. unfold before in *. lia.
    + contradiction.
Qed.

Lemma eqb_iff (x y : float) :
  (x =? y)%float = true <->
  is_nan x = false /\ is_nan y = false /\ position x = position y.
Proof.
  rewrite FloatAxioms.eqb_spec. rewrite !is_nan_false. unfold position, SFeqb.
  split.
  - intros H.
    assert (Hx : Prim2SF x <> S754_nan).
    { intros E. rewrite E in H. discriminate. }
    assert (Hy : Prim2SF y <> S754_nan).
    { intros E. rewrite E in H. destruct (Prim2SF x); discriminate. }
    pose proof (SFcompare_place Hx Hy) as Hc.
    destruct (SFcompare (Prim2SF x) (Prim2SF y)) as [[| |]|]; try discriminate.
    auto.
  - intros (Hx & Hy & Hb).
    pose proof (SFcompare_place Hx Hy) as Hc.
    destruct (SFcompare (Prim2SF x) (Prim2SF y)) as [[| |]|]; try reflexivity.
    + rewrite Hb in Hc. exfalso. revert Hc. apply before_irrefl.
    + rewrite Hb in Hc. exfalso. revert Hc. apply before_irrefl.
    + contradiction.
Qed.

Lemma leb_iff (x y : float) :
  (x <=? y)%float = true <->
  is_nan x = false /\ is_nan y = false
  /\ (before (position x) (position y) \/ position x = position y).
Proof.
  rewrite FloatAxioms.leb_spec. rewrite !is_nan_false. unfold position, SFleb.
  split.
  - intros H.
    assert (Hx : Prim2SF x <> S754_nan).
    { intros E. rewrite E in H. discriminate. }
    assert (Hy : Prim2SF y <> S754_nan).
    { intros E. rewrite E in H. destruct (Prim2SF x); discriminate. }
    pose proof (SFcompare_place Hx Hy) as Hc.
    destruct (SFcompare (Prim2SF x) (Prim2SF y)) as [[| |]|]; try discriminate; auto.
  - intros (Hx & Hy & Hb).
    pose proof (SFcompare_place Hx Hy) as Hc.
    destruct (SFcompare (Prim2SF x) (Prim2SF y)) as [[| |]|]; try reflexivity.
    + exfalso. destruct Hb as [Hb|Hb].
      * unfold before in *. lia.
      * rewrite Hb in Hc. revert Hc. apply before_irrefl.
    + contradiction.
Qed.

Lemma before_total p q : before p q \/ p = q \/ before q p.
Proof.
  destruct p as [a [b c]], q as [a' [b' c']]. unfold before. cbn.
  destruct (Z.lt_total a a') as [?|[?|?]]; [lia| |lia].
  destruct (Z.lt_total b b') as [?|[?|?]]; [lia| |lia].
  destruct (Z.lt_total c c') as [?|[?|?]]; [lia| |lia].
  right. left. congruence.
Qed.

Lemma ltb_false_iff (x y : float) :
  (x <? y)%float = false <->
  is_nan x = true \/ is_nan y = true
  \/ before (position y) (position x) \/ position x = position y.
Proof.
  split.
  - intros H.
    destruct (is_nan x) eqn:Hx; [now left|].
    destruct (is_nan y) eqn:Hy; [now right; left|].
    right. right.
    destruct (before_total (position x) (position y)) as [Hb|[Hb|Hb]]; auto.
    assert ((x <? y)%float = true) by (apply ltb_iff; auto). congruence.
  - intros H. destruct (x <? y)%float eqn:E; [|reflexivity].
    apply ltb_iff in E. destruct E as (Hx & Hy & Hb).
    destruct H as [H|[H|[H|H]]]; try congruence.
    + exfalso. unfold before in *. lia.
    + rewrite H in Hb. exfalso. revert Hb. apply before_irrefl.
Qed.


Lemma position_eq (p q : Z * (Z * Z)) :
  p = q <-> (fst p = fst q /\ fst (snd p) = fst (snd q) /\ snd (snd p) = snd (snd q)).
Proof.
  destruct p as [a [b c]], q as [a' [b' c']]. cbn. split.
  - intros E. inversion E. auto.
  - intros (-> & -> & ->). reflexivity.
Qed.

Ltac order :=
  repeat match goal with
  | H : (_ <? _)%float = true |- _ => apply ltb_iff in H; destruct H as (? & ? & ?)
  | H : (_ <? _)%float = false |- _ => apply ltb_false_iff in H
  | H : (_ =? _)%float = true |- _ => apply eqb_iff in H; destruct H as (? & ? & ?)
  | H : (_ <=? _)%float = true |- _ => apply leb_iff in H; destruct H as (? & ? & ?)
  end;
  match goal with
  | |- (_ <? _)%float = false => apply ltb_false_iff
  | |- (_ <? _)%float = true => apply ltb_iff
  | |- (_ <=? _)%float = true => apply leb_iff
  | |- (_ =? _)%float = true => apply eqb_iff
  | _ => idtac
  end;
  rewrite ?position_eq in *; unfold before in *;
  solve [intuition (try congruence; try lia)].

Lemma ltb_irreflexive (x : float) : (x <? x)%float = false.
Proof. destruct (is_nan x) eqn:E; order. Qed.

Lemma not_nan_dec (x : float) : is_nan x = true \/ is_nan x = false.
Proof. destruct (is_nan x); auto. Qed.

(** ** pandas: the minimum is below every sample *)

Lemma series_min_nan (data : list float) :
  is_nan (series_min data) = true -> Forall (fun v => is_nan v = true) data.
Proof.
  induction data as [|x rest IH]; cbn [series_min]; intros H; [constructor|].
  destruct (is_nan x) eqn:Hx.
  - constructor; auto.
  - destruct (is_nan (series_min rest)) eqn:Hm; [congruence|].
    destruct (series_min rest <? x)%float; congruence.
Qed.

Lemma series_min_lower (data : list float) (v : float) :
  In v data -> (v <? series_min data)%float = false.
Proof.
  induction data as [|x rest IH]; [contradiction|].
  intros Hin. cbn [series_min].
  destruct (is_nan x) eqn:Hx.
  - destruct Hin as [<-|Hin]; [order | auto].
  - destruct (is_nan (series_min rest)) eqn:Hm.
    + destruct Hin as [<-|Hin]; [apply ltb_irreflexive|].
      pose proof (series_min_nan _ Hm) as Hall.
      rewrite Forall_forall in Hall. specialize (Hall _ Hin). order.
    + destruct (series_min rest <? x)%float eqn:Hlt.
      * destruct Hin as [<-|Hin]; [order | auto].
      * destruct Hin as [<-|Hin]; [apply ltb_irreflexive|].
        specialize (IH Hin). destruct (not_nan_dec v) as [Hv|Hv]; order.
Qed.

Lemma series_min_In (data : list float) :
  is_nan (series_min data) = false -> In (series_min data) data.
Proof.
  induction data as [|x rest IH]; cbn [series_min]; intros H.
  - discriminate.
  - destruct (is_nan x) eqn:Hx; [right; auto|].
    destruct (is_nan (series_min rest)) eqn:Hm; [now left|].
    destruct (series_min rest <? x)%float; [right; auto | now left].
Qed.

Lemma series_max_In (data : list float) :
  is_nan (series_max data) = false -> In (series_max data) data.
Proof.
  induction data as [|x rest IH]; cbn [series_max]; intros H.
  - discriminate.
  - destruct (is_nan x) eqn:Hx; [right; auto|].
    destruct (is_nan (series_max rest)) eqn:Hm; [now left|].
    destruct (x <? series_max rest)%float; [right; auto | now left].
Qed.

(** ** numpy: the edges and the search *)

Lemma set_last_keeps_length (y : list float) (stop : float) :
  length (set_last y stop) = length y.
Proof.
  destruct y as [|a y]; [reflexivity|]. unfold set_last.
  rewrite length_app. cbn [length].
  assert (H : length (removelast (a :: y)) = length y).
  { generalize a. induction y as [|b y IH]; intros c; [reflexivity|].
    change (removelast (c :: b :: y)) with (c :: removelast (b :: y)).
    cbn [length]. now rewrite IH. }
  rewrite H. lia.
Qed.

Lemma linspace_num (start stop : float) (num : Z) (bins : list float) :
  linspace start stop num = Ok bins -> length bins = Z.to_nat num.
Proof.
  unfold linspace. destruct (num <? 0)%Z; [discriminate|]. cbv zeta.
  intros H. injection H as <-.
  assert (Hl : forall f : float -> float, length (map f (arange (Z.to_nat num))) = Z.to_nat num).
  { intros f. unfold arange. now rewrite !length_map, length_seq. }
  destruct (1 <? num)%Z; rewrite ?set_last_keeps_length, length_map;
    destruct (0 <? num - 1)%Z; try destruct (_ =? _)%float; apply Hl.
Qed.

(** The first edge: [0 * step + start], which is [start] up to the sign of
    a zero unless it is [nan]. *)
Lemma zero_like_div (z d : float) : zero_like z -> zero_like (z / d)%float.
Proof.
  unfold zero_like. rewrite FloatAxioms.div_spec. unfold SF64div, SFdiv.
  intros [->|[s ->]]; [now left|].
  destruct (Prim2SF d); eauto.
Qed.

Lemma zero_like_edge (z w s : float) :
  zero_like z -> is_nan (z * w + s)%float = false ->
  is_nan s = false /\ position (z * w + s)%float = position s.
Proof.
  unfold zero_like, position. rewrite !is_nan_false.
  rewrite FloatAxioms.add_spec, FloatAxioms.mul_spec.
  unfold SF64add, SFadd, SF64mul, SFmul.
  intros [->|[sz ->]]; [congruence|].
  destruct (Prim2SF w) as [sw|sw| |sw mw ew]; try congruence;
    destruct (Prim2SF s) as [ss|ss| |ss ms es]; try congruence;
    intros H; (split; [congruence|]);
    try reflexivity;
    destruct (xorb sz sw), ss; reflexivity.
Qed.

Lemma linspace_first (start stop : float) (num : Z) (bins : list float) :
  (1 <= num)%Z -> linspace start stop num = Ok bins ->
  exists z w rest, zero_like z /\ bins = (z * w + start)%float :: rest.
Proof.
  intros Hn. unfold linspace.
  assert (H0 : (num <? 0)%Z = false) by (apply Z.ltb_ge; lia).
  rewrite H0. cbv zeta.
  assert (Hz : zero_like (of_nat 0)).
  { right. exists false. reflexivity. }
  destruct (Z.to_nat num) as [|n] eqn:En; [lia|].
  unfold arange. cbn [seq map].
  set (tl := map of_nat (seq 1 n)).
  assert (Hhead : forall f : float -> float,
    exists rest,
      (if (1 <? num)%Z
       then set_last (map (fun v => (v + start)%float) (f (of_nat 0) :: map f tl)) stop
       else map (fun v => (v + start)%float) (f (of_nat 0) :: map f tl))
      = (f (of_nat 0) + start)%float :: rest).
  { intros f. destruct (1 <? num)%Z eqn:E1.
    - cbn [map]. destruct (map (fun v => (v + start)%float) (map f tl)) as [|b l] eqn:El.
      + apply Z.ltb_lt in E1. exfalso.
        apply (f_equal (@length float)) in El. rewrite !length_map in El.
        unfold tl in El. rewrite length_map, length_seq in El. cbn in El. lia.
      + unfold set_last.
        change (removelast ((f (of_nat 0) + start)%float :: b :: l))
          with ((f (of_nat 0) + start)%float :: removelast (b :: l)).
        eexists. reflexivity.
    - cbn [map]. eexists. reflexivity. }
  intros H. injection H as <-.
  destruct (0 <? num - 1)%Z.
  - destruct (_ =? _)%float.
    + destruct (Hhead (fun v => (v / of_Z (num - 1) * (stop - start))%float)) as [rest Hr].
      exists (of_nat 0 / of_Z (num - 1))%float, (stop - start)%float, rest.
      split; [now apply zero_like_div | exact Hr].
    + destruct (Hhead (fun v => (v * ((stop - start) / of_Z (num - 1)))%float)) as [rest Hr].
      exists (of_nat 0), ((stop - start) / of_Z (num - 1))%float, rest.
      split; [exact Hz | exact Hr].
  - destruct (Hhead (fun v => (v * (stop - start))%float)) as [rest Hr].
    exists (of_nat 0), (stop - start)%float, rest.
    split; [exact Hz | exact Hr].
Qed.

Lemma searchsorted_right_bounds (a : list float) (v : float) :
  (0 <= searchsorted_right a v <= Z.of_nat (length a))%Z.
Proof.
  unfold searchsorted_right.
  pose proof (filter_length_le (fun e => negb (np_lt v e)) a). lia.
Qed.

Lemma np_lt_mono (k k' e : float) :
  (k <=? k')%float = true -> np_lt k e = false -> np_lt k' e = false.
Proof.
  unfold np_lt. intros Hk H.
  apply orb_false_iff in H. destruct H as [H1 H2].
  assert (Hnk : is_nan k = false) by order.
  assert (Hnk' : is_nan k' = false) by order.
  rewrite Hnk in H2. rewrite Hnk'. cbn in *. rewrite andb_true_r in *.
  rewrite H2, orb_false_r. order.
Qed.

Lemma filter_length_le_filter (A : Type) (f g : A -> bool) (l : list A) :
  (forall x, In x l -> f x = true -> g x = true) ->
  length (filter f l) <= length (filter g l).
Proof.
  induction l as [|x l IH]; intros H; [reflexivity|].
  cbn [filter].
  assert (IH' : length (filter f l) <= length (filter g l)).
  { apply IH. intros y Hy. apply H. now right. }
  destruct (f x) eqn:Ef.
  - rewrite (H x (or_introl eq_refl) Ef). cbn [length]. lia.
  - destruct (g x); cbn [length]; lia.
Qed.

Lemma searchsorted_right_mono (a : list float) (k k' : float) :
  (k <=? k')%float = true -> (searchsorted_right a k <= searchsorted_right a k')%Z.
Proof.
  intros Hk. unfold searchsorted_right. apply inj_le. apply filter_length_le_filter.
  intros e _ H. apply negb_true_iff in H. apply negb_true_iff.
  eapply np_lt_mono; eassumption.
Qed.


Lemma digitize_increasing (x bins : list float) :
  monotonicity bins = 1%Z -> digitize x bins = Ok (map (searchsorted_right bins) x).
Proof. intros H. unfold digitize. rewrite H. reflexivity. Qed.



(** The last edge is [stop] itself: [y[-1] = stop]. *)
Lemma linspace_last (start stop : float) (num : Z) (bins : list float) :
  (2 <= num)%Z -> linspace start stop num = Ok bins ->
  exists front, bins = front ++ [stop].
Proof.
  intros Hn. unfold linspace.
  assert (H0 : (num <? 0)%Z = false) by (apply Z.ltb_ge; lia).
  assert (H1 : (1 <? num)%Z = true) by (apply Z.ltb_lt; lia).
  rewrite H0, H1. cbv zeta. intros H. injection H as <-.
  destruct (Z.to_nat num) as [|n] eqn:En; [lia|].
  unfold arange. cbn [seq map]. unfold set_last.
  destruct (0 <? num - 1)%Z; try destruct (_ =? _)%float; eexists; reflexivity.
Qed.

Lemma last_cons (a : list float) :
  forall y x, last (y :: a) x = last a y.
Proof.
  induction a as [|z a IH]; intros y x; [reflexivity|].
  change (last (y :: z :: a) x) with (last (z :: a) x).
  now rewrite (IH z x), (IH z y).
Qed.

(** Edges free of [nan] that [np.digitize] finds increasing never step
    down: none of them is above the last. *)
Lemma no_descent_last (a : list float) :
  forall x,
    Forall (fun e => is_nan e = false) (x :: a) ->
    no_descent x a = true ->
    forall e, In e (x :: a) -> (last a x <? e)%float = false.
Proof.
  induction a as [|y a IH]; intros x Hnan Hd e He.
  - destruct He as [<-|[]]. apply ltb_irreflexive.
  - cbn [no_descent] in Hd.
    destruct (y <? x)%float eqn:Hyx; [discriminate|].
    inversion Hnan as [|x' l Hx Hrest]; subst.
    assert (Hlast : last (y :: a) x = last a y) by apply last_cons.
    rewrite Hlast.
    destruct He as [<-|He]; [|now apply IH].
    pose proof (IH y Hrest Hd y (or_introl eq_refl)) as Hy.
    inversion Hrest as [|y' l' Hny _]; subst.
    destruct (not_nan_dec (last a y)) as [Hl|Hl]; [order|].
    clear IH Hd Hnan Hrest Hlast. order.
Qed.

Lemma skip_repeated_split (x : float) (a : list float) :
  exists front,
    a = front ++ skip_repeated x a
    /\ Forall (fun e => (e =? x)%float = true) front.
Proof.
  induction a as [|y a IH]; cbn [skip_repeated].
  - exists []. split; [reflexivity | constructor].
  - destruct (y =? x)%float eqn:E.
    + destruct IH as (front & Hf & Hall). exists (y :: front).
      split; [cbn; now rewrite <- Hf | now constructor].
    + exists []. split; [reflexivity | constructor].
Qed.

Lemma last_app_cons (front : list float) (y x : float) (a : list float) :
  last (front ++ y :: a) x = last a y.
Proof.
  induction front as [|z front IH]; cbn [app].
  - apply last_cons.
  - rewrite last_cons. rewrite <- IH.
    destruct front as [|w front]; cbn [app]; now rewrite !last_cons.
Qed.

Lemma increasing_edges_last (bins : list float) (x : float) :
  Forall (fun e => is_nan e = false) bins ->
  monotonicity bins = 1%Z ->
  forall e, In e bins -> (last bins x <? e)%float = false.
Proof.
  intros Hnan Hm e He.
  destruct bins as [|b0 rest]; [contradiction|].
  unfold monotonicity in Hm.
  destruct (skip_repeated_split b0 rest) as (front & Hsplit & Hfront).
  destruct (skip_repeated b0 rest) as [|next rest'] eqn:Hs.
  - rewrite app_nil_r in Hsplit. subst front.
    assert (Hall : forall e', In e' (b0 :: rest) -> position e' = position b0).
    { intros e' [<-|He']; [reflexivity|].
      rewrite Forall_forall in Hfront. specialize (Hfront _ He'). order. }
    assert (Hin : In (last (b0 :: rest) x) (b0 :: rest)).
    { clear. assert (H : forall (l : list float) y d, In (last (y :: l) d) (y :: l)).
      { induction l as [|z l IH]; intros y d; [now left|].
        change (last (y :: z :: l) d) with (last (z :: l) d). right. apply IH. }
      apply H. }
    pose proof (Hall _ He) as H1. pose proof (Hall _ Hin) as H2.
    rewrite Forall_forall in Hnan.
    pose proof (Hnan _ He) as H3. pose proof (Hnan _ Hin) as H4.
    clear Hall Hfront Hm Hs Hnan He Hin. order.
  - destruct (b0 <? next)%float eqn:Hlt.
    + destruct (no_descent next rest') eqn:Hd; [|discriminate].
      assert (Hnan' : Forall (fun e => is_nan e = false) (next :: rest')).
      { rewrite Hsplit in Hnan. inversion Hnan as [|? ? _ Hr]; subst.
        apply Forall_app in Hr. tauto. }
      assert (Hlast : last (b0 :: rest) x = last rest' next).
      { rewrite Hsplit. change (b0 :: front ++ next :: rest')
          with ((b0 :: front) ++ next :: rest'). apply last_app_cons. }
      rewrite Hlast.
      pose proof (no_descent_last Hnan' Hd) as Hup.
      assert (Hnext : (last rest' next <? next)%float = false)
        by (apply Hup; now left).
      assert (Hb0 : forall e', In e' (b0 :: front) -> position e' = position b0
                                                     /\ is_nan e' = false).
      { intros e' [<-|He'].
        - split; [reflexivity|]. clear Hup Hnext Hnan Hnan' Hfront. order.
        - rewrite Forall_forall in Hfront. specialize (Hfront _ He').
          clear Hup Hnext Hnan Hnan' Hlt. order. }
      rewrite Hsplit in He.
      change (In e ((b0 :: front) ++ next :: rest')) in He.
      apply in_app_or in He. destruct He as [He|He]; [|now apply Hup].
      destruct (Hb0 _ He) as [Hp Hn].
      destruct (not_nan_dec (last rest' next)) as [Hl|Hl]; [order|].
      clear Hup Hb0 Hnan Hnan' Hfront Hs Hsplit Hlast Hd Hm He. order.
    + destruct (no_ascent next rest'); discriminate.
Qed.

(** Edges free of [nan] that [np.digitize] finds increasing are sorted
    in the order in which [np.searchsorted] searches them. *)
Lemma np_lt_not_nan (x y : float) :
  is_nan y = false -> np_lt x y = (x <? y)%float.
Proof. intros H. unfold np_lt. rewrite H. cbn. apply orb_false_r. Qed.

Lemma no_descent_np_sorted (a : list float) :
  forall x,
    Forall (fun e => is_nan e = false) (x :: a) ->
    no_descent x a = true ->
    np_sorted (x :: a).
Proof.
  unfold np_sorted.
  induction a as [|y a IH]; intros x Hnan Hd.
  - constructor; constructor.
  - cbn [no_descent] in Hd.
    destruct (y <? x)%float eqn:Hyx; [discriminate|].
    inversion Hnan as [|x' l Hx Hrest]; subst.
    inversion Hrest as [|y' l' Hy Hrest']; subst.
    specialize (IH y Hrest Hd).
    constructor; [exact IH|].
    inversion IH as [|y' l' _ Hall]; subst.
    constructor.
    + rewrite np_lt_not_nan by exact Hx. exact Hyx.
    + rewrite Forall_forall in *. intros e He.
      specialize (Hall _ He). specialize (Hrest' _ He).
      rewrite np_lt_not_nan in * by assumption.
      clear IH Hd Hnan Hrest He. order.
Qed.

Lemma increasing_edges_sorted (bins : list float) :
  Forall (fun e => is_nan e = false) bins ->
  monotonicity bins = 1%Z ->
  np_sorted bins.
Proof.
  intros Hnan Hm.
  destruct bins as [|b0 rest]; [constructor|].
  unfold monotonicity in Hm.
  destruct (skip_repeated_split b0 rest) as (front & Hsplit & Hfront).
  assert (Hb0 : is_nan b0 = false) by (now inversion Hnan).
  assert (Hgoal : forall tail,
            np_sorted tail ->
            Forall (fun e => (e <? b0)%float = false) tail ->
            np_sorted (b0 :: front ++ tail)).
  { intros tail Ht Hlow. unfold np_sorted in *.
    assert (Hfr : forall l, Forall (fun e => (e =? b0)%float = true) l ->
              StronglySorted (fun x y => np_lt y x = false) (l ++ tail)
              /\ Forall (fun e => (e <? b0)%float = false) (l ++ tail)).
    { induction l as [|z l IHl]; intros Hl; cbn [app]; [split; assumption|].
      inversion Hl as [|z' l' Hz Hl']; subst.
      destruct (IHl Hl') as [Hs Hlo]. split.
      - constructor; [exact Hs|].
        rewrite Forall_forall in *. intros e He. specialize (Hlo _ He).
        assert (Hnz : is_nan z = false) by (clear Hs Hlo He Hl Hl' Hfront; order).
        rewrite np_lt_not_nan by exact Hnz.
        clear Hs He Hl Hl' Hfront IHl Ht Hlow. order.
      - constructor; [|exact Hlo]. clear Hs Hlo Hl Hl' Hfront IHl Ht Hlow. order. }
    destruct (Hfr front Hfront) as [Hs Hlo].
    constructor; [exact Hs|].
    rewrite Forall_forall in *. intros e He. specialize (Hlo _ He).
    rewrite np_lt_not_nan by exact Hb0. exact Hlo. }
  destruct (skip_repeated b0 rest) as [|next rest'] eqn:Hs.
  - rewrite Hsplit. apply Hgoal; constructor.
  - destruct (b0 <? next)%float eqn:Hlt.
    + destruct (no_descent next rest') eqn:Hd; [|discriminate].
      assert (Hnan' : Forall (fun e => is_nan e = false) (next :: rest')).
      { rewrite Hsplit in Hnan. inversion Hnan as [|? ? _ Hr]; subst.
        apply Forall_app in Hr. tauto. }
      pose proof (no_descent_np_sorted Hnan' Hd) as Hsorted.
      rewrite Hsplit. apply Hgoal; [exact Hsorted|].
      unfold np_sorted in Hsorted.
      inversion Hsorted as [|n' l' _ Hall]; subst.
      constructor.
      * clear - Hlt. order.
      * rewrite Forall_forall in *. intros e He.
        specialize (Hall _ He). specialize (Hnan' e (or_intror He)).
        assert (Hnn : is_nan next = false) by (clear - Hlt; order).
        rewrite np_lt_not_nan in Hall by exact Hnn.
        clear - Hall Hlt Hnan'. order.
    + destruct (no_ascent next rest'); discriminate.
Qed.

(** ** The quantizer on edges found increasing *)

Section QuantizerFacts.

Variable A : Type.
Variable np_log : float -> float.

Lemma bin_indices_key (data : list float) (freq : list A) (log : bool) :
  bin_indices np_log data freq log =
  (bins <- linspace (key np_log log (series_min data)) (key np_log log (series_max data))
             (Z.of_nat (length freq) - 1) ;;
   digitize (map (key np_log log) data) bins).
Proof.
  destruct log; [reflexivity|]. unfold bin_indices, key. now rewrite map_id.
Qed.

Lemma freqMap_increasing_edges (data : list float) (freq : list A)
    (log inv : bool) (offset : Z) (bins : list float) :
  freq <> [] ->
  linspace (key np_log log (series_min data)) (key np_log log (series_max data))
    (Z.of_nat (length freq) - 1) = Ok bins ->
  monotonicity bins = 1%Z ->
  exists idx out,
    bin_indices np_log data freq log = Ok idx
    /\ idx = map (fun v => searchsorted_right bins (key np_log log v)) data
    /\ Forall (fun i => 0 <= i < Z.of_nat (length freq))%Z idx
    /\ freqMap np_log data freq log inv offset = Ok out
    /\ Forall2 (fun i p => entry freq i = Some p) idx out.
Proof.
  intros Hf Hl Hm.
  assert (Hidx : bin_indices np_log data freq log
                 = Ok (map (fun v => searchsorted_right bins (key np_log log v)) data)).
  { rewrite bin_indices_key, Hl. cbn [bind]. rewrite (@digitize_increasing _ _ Hm).
    now rewrite map_map. }
  assert (Hr : Forall (fun i => 0 <= i < Z.of_nat (length freq))%Z
                 (map (fun v => searchsorted_right bins (key np_log log v)) data)).
  { apply Forall_forall. intros i Hi. apply in_map_iff in Hi.
    destruct Hi as (v & <- & _).
    pose proof (searchsorted_right_bounds bins (key np_log log v)) as Hs.
    apply linspace_num in Hl.
    destruct freq as [|p freq']; [congruence|]. cbn [length] in *. lia. }
  destruct (@mapM_getitem _ freq _ Hr) as (out & Ho & Hal & _).
  eexists. exists out. split; [exact Hidx|]. split; [reflexivity|].
  split; [exact Hr|]. split; [|exact Hal].
  unfold freqMap. rewrite Hidx. cbn [bind]. exact Ho.
Qed.

Lemma nondecreasing_searchsorted (bins : list float) (data : list float) :
  increasing data -> nondecreasing (map (searchsorted_right bins) data).
Proof.
  induction data as [|x rest IH]; [constructor|].
  intros [Hx Hrest]. cbn [map nondecreasing]. split; [|now apply IH].
  destruct rest as [|y rest']; [exact I|]. cbn [map].
  apply searchsorted_right_mono. order.
Qed.

Lemma nonincreasing_searchsorted (n : Z) (bins : list float) (data : list float) :
  increasing data ->
  nonincreasing (map (fun v => n - searchsorted_right bins v)%Z data).
Proof.
  induction data as [|x rest IH]; [constructor|].
  intros [Hx Hrest]. cbn [map nonincreasing]. split; [|now apply IH].
  destruct rest as [|y rest']; [exact I|]. cbn [map].
  assert (Hle : (x <=? y)%float = true) by (clear - Hx; order).
  pose proof (@searchsorted_right_mono bins x y Hle). lia.
Qed.

(** C8 (as the code has it, in binary64).  For every strictly increasing
    series quantized in linear mode, whenever [np.digitize] finds the
    edges of [np.linspace] increasing, the bin index of a sample is the
    number of edges not above it, the indices of successive samples never
    decrease, and the output holds the entries of the scale at these
    indices. *)
Theorem freqMap_monotone_binary64 (data : list float) (freq : list A)
    (inv : bool) (offset : Z) (bins : list float) :
  increasing data ->
  freq <> [] ->
  linspace (series_min data) (series_max data) (Z.of_nat (length freq) - 1) = Ok bins ->
  monotonicity bins = 1%Z ->
  exists idx out,
    bin_indices np_log data freq false = Ok idx
    /\ idx = map (searchsorted_right bins) data
    /\ nondecreasing idx
    /\ freqMap np_log data freq false inv offset = Ok out
    /\ Forall2 (fun i p => entry freq i = Some p) idx out.
Proof.
  intros Hinc Hf Hl Hm.
  destruct (@freqMap_increasing_edges data freq false inv offset bins Hf Hl Hm)
    as (idx & out & Hidx & Heq & _ & Ho & Hal).
  exists idx, out. cbn [key] in Heq.
  repeat split; try assumption.
  rewrite Heq. now apply nondecreasing_searchsorted.
Qed.

Lemma key_lower (data : list float) (log : bool) (v : float) :
  (log = true -> Forall (fun x => (0 <? x)%float = true) data) ->
  (log = true -> keeps_order np_log) ->
  In v data ->
  (key np_log log v <? key np_log log (series_min data))%float = false.
Proof.
  intros Hpos Hlog Hin. pose proof (series_min_lower data v Hin) as Hlow.
  destruct log; cbn [key]; [|exact Hlow].
  specialize (Hpos eq_refl). specialize (Hlog eq_refl).
  rewrite Forall_forall in Hpos.
  pose proof (Hpos _ Hin) as Hv.
  destruct (not_nan_dec (series_min data)) as [Hm|Hm].
  - pose proof (series_min_nan _ Hm) as Hall. rewrite Forall_forall in Hall.
    specialize (Hall _ Hin). order.
  - pose proof (Hpos _ (series_min_In _ Hm)) as Hmp.
    assert (Hle : (series_min data <=? v)%float = true).
    { clear Hlog Hpos. order. }
    pose proof (Hlog _ _ Hmp Hle) as Hk. clear Hlog Hpos Hle Hlow Hv Hmp. order.
Qed.

(** C10 (as the code has it, in binary64).  For every series (in log mode
    of positive samples, [np.log] keeping their order) and every scale of
    at least two entries, whenever the edges of [np.linspace] are free of
    [nan] and [np.digitize] finds them increasing: the first edge equals
    the minimum of the series (its logarithm in log mode), a sample on an
    edge falls to the bin above, so the bin index of every sample is at
    least [1] and the output never contains the first entry of a scale of
    distinct pitches. *)
Theorem freqMap_first_entry_unreachable_binary64 (data : list float) (freq : list A)
    (log inv : bool) (offset : Z) (bins : list float) :
  (log = true -> Forall (fun x => (0 <? x)%float = true) data) ->
  (log = true -> keeps_order np_log) ->
  2 <= length freq ->
  linspace (key np_log log (series_min data)) (key np_log log (series_max data))
    (Z.of_nat (length freq) - 1) = Ok bins ->
  Forall (fun e => is_nan e = false) bins ->
  monotonicity bins = 1%Z ->
  exists idx out,
    bin_indices np_log data freq log = Ok idx
    /\ idx = map (fun v => searchsorted_right bins (key np_log log v)) data
    /\ Forall (fun i => 1 <= i < Z.of_nat (length freq))%Z idx
    /\ freqMap np_log data freq log inv offset = Ok out
    /\ Forall2 (fun i p => entry freq i = Some p) idx out
    /\ (exists first rest,
          bins = first :: rest
          /\ (first =? key np_log log (series_min data))%float = true)
    /\ (NoDup freq -> forall p, nth_error freq 0 = Some p -> ~ In p out).
Proof.
  intros Hpos Hlog Hlen Hl Hnan Hm.
  assert (Hf : freq <> []) by (destruct freq; [cbn in Hlen; lia | discriminate]).
  assert (Hn1 : (1 <= Z.of_nat (length freq) - 1)%Z) by lia.
  destruct (@linspace_first _ _ _ _ Hn1 Hl) as (z & w & rest & Hz & Hb).
  assert (He0 : is_nan (z * w + key np_log log (series_min data))%float = false).
  { rewrite Hb in Hnan. now inversion Hnan. }
  destruct (@zero_like_edge _ _ _ Hz He0) as [Hs Hp].
  destruct (@freqMap_increasing_edges data freq log inv offset bins Hf Hl Hm)
    as (idx & out & Hidx & Heq & Hr & Ho & Hal).
  assert (Hone : Forall (fun i => 1 <= i < Z.of_nat (length freq))%Z idx).
  { rewrite Heq. apply Forall_forall. intros i Hi. apply in_map_iff in Hi.
    destruct Hi as (v & <- & Hv).
    split.
    - pose proof (@key_lower data log v Hpos Hlog Hv) as Hk.
      rewrite Hb. unfold searchsorted_right. cbn [filter].
      assert (Hnp : np_lt (key np_log log v)
                      (z * w + key np_log log (series_min data))%float = false).
      { unfold np_lt. rewrite He0. cbn [andb]. rewrite orb_false_r.
        clear Hr Hl Hm Hnan Hidx Heq Ho Hal Hb. order. }
      rewrite Hnp. cbn [negb length]. lia.
    - pose proof (searchsorted_right_bounds bins (key np_log log v)) as Hbd.
      apply linspace_num in Hl. lia. }
  exists idx, out.
  split; [exact Hidx|]. split; [exact Heq|]. split; [exact Hone|].
  split; [exact Ho|]. split; [exact Hal|].
  split.
  { exists (z * w + key np_log log (series_min data))%float, rest.
    split; [exact Hb|]. apply eqb_iff. auto. }
  intros Hnd p Hp0 Hin.
  destruct (@Forall2_In_r _ _ _ _ _ p Hal Hin) as (i & Hi & He).
  rewrite Forall_forall in Hone. specialize (Hone _ Hi).
  unfold entry in He. destruct (i <? 0)%Z; [discriminate|].
  rewrite NoDup_nth_error in Hnd.
  assert (Hlt : Z.to_nat i < length freq) by lia.
  assert (E : Z.to_nat i = 0).
  { apply Hnd; [exact Hlt | congruence]. }
  lia.
Qed.

(** Order is kept in either mode: whenever [np.digitize] finds the edges
    increasing, of two samples of the series (positive ones in log mode,
    [np.log] keeping their order) the larger never gets the lower bin
    index. *)
Theorem freqMap_order_preserving_binary64 (data : list float) (freq : list A)
    (log inv : bool) (offset : Z) (bins : list float) :
  (log = true -> Forall (fun x => (0 <? x)%float = true) data) ->
  (log = true -> keeps_order np_log) ->
  freq <> [] ->
  linspace (key np_log log (series_min data)) (key np_log log (series_max data))
    (Z.of_nat (length freq) - 1) = Ok bins ->
  monotonicity bins = 1%Z ->
  exists idx out,
    bin_indices np_log data freq log = Ok idx
    /\ freqMap np_log data freq log inv offset = Ok out
    /\ Forall2 (fun i p => entry freq i = Some p) idx out
    /\ forall i j v v' a b,
         nth_error data i = Some v -> nth_error data j = Some v' ->
         (v <=? v')%float = true ->
         nth_error idx i = Some a -> nth_error idx j = Some b ->
         (a <= b)%Z.
Proof.
  intros Hpos Hlog Hf Hl Hm.
  destruct (@freqMap_increasing_edges data freq log inv offset bins Hf Hl Hm)
    as (idx & out & Hidx & Heq & _ & Ho & Hal).
  exists idx, out. split; [exact Hidx|]. split; [exact Ho|]. split; [exact Hal|].
  intros i j v v' a b Hi Hj Hle Ha Hb.
  rewrite Heq, nth_error_map in Ha, Hb. rewrite Hi in Ha. rewrite Hj in Hb.
  cbn in Ha, Hb. injection Ha as <-. injection Hb as <-.
  apply searchsorted_right_mono.
  destruct log; cbn [key]; [|exact Hle].
  apply (Hlog eq_refl); [|exact Hle].
  specialize (Hpos eq_refl). rewrite Forall_forall in Hpos.
  apply Hpos. eapply nth_error_In; eassumption.
Qed.

(** The maximum of the series is the last edge itself ([y[-1] = stop]):
    on a scale of at least three entries, whenever the edges are free of
    [nan] and [np.digitize] finds them increasing, every sample that is
    not below the maximum gets index [len(freq) - 1], the last entry of
    the scale. *)
Theorem freqMap_maximum_last_binary64 (data : list float) (freq : list A)
    (log inv : bool) (offset : Z) (bins : list float) :
  (log = true -> Forall (fun x => (0 <? x)%float = true) data) ->
  (log = true -> keeps_order np_log) ->
  3 <= length freq ->
  linspace (key np_log log (series_min data)) (key np_log log (series_max data))
    (Z.of_nat (length freq) - 1) = Ok bins ->
  Forall (fun e => is_nan e = false) bins ->
  monotonicity bins = 1%Z ->
  exists idx out,
    bin_indices np_log data freq log = Ok idx
    /\ freqMap np_log data freq log inv offset = Ok out
    /\ Forall2 (fun i p => entry freq i = Some p) idx out
    /\ forall i v,
         nth_error data i = Some v -> (series_max data <=? v)%float = true ->
         nth_error idx i = Some (Z.of_nat (length freq - 1))
         /\ nth_error out i = nth_error freq (length freq - 1).
Proof.
  intros Hpos Hlog Hlen Hl Hnan Hm.
  assert (Hf : freq <> []) by (destruct freq; [cbn in Hlen; lia | discriminate]).
  assert (Hn2 : (2 <= Z.of_nat (length freq) - 1)%Z) by lia.
  destruct (@linspace_last _ _ _ _ Hn2 Hl) as (front & Hb).
  destruct (@freqMap_increasing_edges data freq log inv offset bins Hf Hl Hm)
    as (idx & out & Hidx & Heq & _ & Ho & Hal).
  exists idx, out. split; [exact Hidx|]. split; [exact Ho|]. split; [exact Hal|].
  intros i v Hi Hle.
  assert (Hkey : (key np_log log (series_max data) <=? key np_log log v)%float = true).
  { destruct log; cbn [key]; [|exact Hle].
    apply (Hlog eq_refl); [|exact Hle].
    specialize (Hpos eq_refl). rewrite Forall_forall in Hpos.
    apply Hpos. apply series_max_In. clear Hpos Hlog Hl Hnan Hm Hb Hidx Heq Ho Hal. order. }
  assert (Hall : searchsorted_right bins (key np_log log v) = Z.of_nat (length bins)).
  { unfold searchsorted_right. f_equal.
    assert (Hup : forall e, In e bins ->
              (key np_log log (series_max data) <? e)%float = false).
    { intros e He.
      pose proof (@increasing_edges_last bins 0%float Hnan Hm e He) as Hlast.
      rewrite Hb in Hlast. rewrite last_last in Hlast. exact Hlast. }
    assert (Hfil : forall l, (forall e, In e l -> In e bins) ->
              length (filter (fun e => negb (np_lt (key np_log log v) e)) l) = length l).
    { induction l as [|e l IH]; intros Hsub; [reflexivity|].
      cbn [filter].
      assert (Hnp : np_lt (key np_log log v) e = false).
      { unfold np_lt.
        assert (He : In e bins) by (apply Hsub; now left).
        rewrite Forall_forall in Hnan. rewrite (Hnan _ He). cbn [andb].
        rewrite orb_false_r. specialize (Hup _ He).
        clear IH Hsub Hpos Hlog Hl Hm Hb Hidx Heq Ho Hal Hnan He. order. }
      rewrite Hnp. cbn [negb length]. f_equal. apply IH.
      intros e' He'. apply Hsub. now right. }
    apply Hfil. auto. }
  assert (Hix : nth_error idx i = Some (Z.of_nat (length freq - 1))).
  { rewrite Heq, nth_error_map, Hi. cbn. f_equal. rewrite Hall.
    apply linspace_num in Hl. rewrite Hl. f_equal. lia. }
  split; [exact Hix|].
  clear Heq Hidx Ho Hi.
  revert i Hix. induction Hal as [|j p idx' out' Hjp _ IH]; intros i Hix.
  - destruct i; discriminate.
  - destruct i as [|i].
    + cbn in Hix. injection Hix as ->. cbn [nth_error].
      unfold entry in Hjp. destruct (_ <? 0)%Z eqn:E; [apply Z.ltb_lt in E; lia|].
      rewrite Nat2Z.id in Hjp. now rewrite Hjp.
    + cbn [nth_error] in *. now apply IH.
Qed.

(** When [np.digitize] finds the edges decreasing it searches them in
    reverse and counts from the end: the bin indices of a strictly
    increasing series then never increase, the order of the samples is
    reversed in the output. *)
Theorem freqMap_decreasing_edges_binary64 (data : list float) (freq : list A)
    (inv : bool) (offset : Z) (bins : list float) :
  increasing data ->
  freq <> [] ->
  linspace (series_min data) (series_max data) (Z.of_nat (length freq) - 1) = Ok bins ->
  monotonicity bins = (-1)%Z ->
  exists idx out,
    bin_indices np_log data freq false = Ok idx
    /\ idx = map (fun v => Z.of_nat (length bins) - searchsorted_right (rev bins) v)%Z data
    /\ nonincreasing idx
    /\ freqMap np_log data freq false inv offset = Ok out
    /\ Forall2 (fun i p => entry freq i = Some p) idx out.
Proof.
  intros Hinc Hf Hl Hm.
  set (f := fun v => (Z.of_nat (length bins) - searchsorted_right (rev bins) v)%Z).
  assert (Hidx : bin_indices np_log data freq false = Ok (map f data)).
  { unfold bin_indices. rewrite Hl. cbn [bind]. unfold digitize. rewrite Hm. reflexivity. }
  assert (Hr : Forall (fun i => 0 <= i < Z.of_nat (length freq))%Z (map f data)).
  { apply Forall_forall. intros i Hi. apply in_map_iff in Hi.
    destruct Hi as (v & <- & _). unfold f.
    pose proof (searchsorted_right_bounds (rev bins) v) as Hs.
    rewrite length_rev in Hs. apply linspace_num in Hl.
    destruct freq as [|p freq']; [congruence|]. cbn [length] in *. lia. }
  destruct (@mapM_getitem _ freq _ Hr) as (out & Ho & Hal & _).
  exists (map f data), out.
  split; [exact Hidx|]. split; [reflexivity|].
  split; [now apply nonincreasing_searchsorted|].
  split; [|exact Hal].
  unfold freqMap. rewrite Hidx. cbn [bind]. exact Ho.
Qed.


End QuantizerFacts.

(** ** Runs *)

(** The series [-2^1023, 2^1023] is strictly increasing, [max - min]
    overflows to [inf], the edges come out as [nan, 2^1023], which
    [np.digitize] finds decreasing, and the indices [2, 1] decrease: on
    the scale [60, 64, 67] the lower sample gets [67], the higher [64]. *)
Lemma freqMap_overflow_not_monotone :
  increasing [(-0x1p+1023)%float; 0x1p+1023%float]
  /\ bin_indices log_not_called [(-0x1p+1023)%float; 0x1p+1023%float]
       [60; 64; 67]%Z false = Ok [2; 1]%Z
  /\ freqMap log_not_called [(-0x1p+1023)%float; 0x1p+1023%float]
       [60; 64; 67]%Z false false 0 = Ok [67; 64]%Z
  /\ ~ nondecreasing [2; 1]%Z.
Proof.
  split; [vm_compute; auto|].
  split; [vm_compute; reflexivity|].
  split; [vm_compute; reflexivity|].
  cbn. lia.
Qed.

(** The series [1, 1.0000000000000002] on a scale of four entries: the
    edges come out as [1, 1, 1.0000000000000002], the second one rounded
    down onto the first, and the sample equal to the minimum gets index
    [2], the third entry of the scale, not the second. *)
Lemma freqMap_minimum_not_second :
  series_min [1%float; 0x1.0000000000001p+0%float] = 1%float
  /\ linspace 1%float 0x1.0000000000001p+0%float 3
     = Ok [1%float; 1%float; 0x1.0000000000001p+0%float]
  /\ bin_indices log_not_called [1%float; 0x1.0000000000001p+0%float]
       [60; 62; 64; 67]%Z false = Ok [2; 3]%Z
  /\ freqMap log_not_called [1%float; 0x1.0000000000001p+0%float]
       [60; 62; 64; 67]%Z false false 0 = Ok [64; 67]%Z
  /\ nth_error [64; 67]%Z 0 <> nth_error [60; 62; 64; 67]%Z 1.
Proof.
  split; [vm_compute; reflexivity|].
  split; [vm_compute; reflexivity|].
  split; [vm_compute; reflexivity|].
  split; [vm_compute; reflexivity|].
  discriminate.
Qed.

Lemma freqMap_monotone_binary64_witness :
  exists idx out,
    bin_indices log_not_called [1%float; 2%float; 4%float; 7%float]
      [60; 62; 64; 67]%Z false = Ok idx
    /\ idx = map (searchsorted_right [1%float; 4%float; 7%float])
               [1%float; 2%float; 4%float; 7%float]
    /\ nondecreasing idx
    /\ freqMap log_not_called [1%float; 2%float; 4%float; 7%float]
         [60; 62; 64; 67]%Z false false 0 = Ok out
    /\ Forall2 (fun i p => entry [60; 62; 64; 67]%Z i = Some p) idx out.
Proof.
  apply (@freqMap_monotone_binary64 Z log_not_called
           [1%float; 2%float; 4%float; 7%float] [60; 62; 64; 67]%Z false 0%Z
           [1%float; 4%float; 7%float]).
  - vm_compute. auto.
  - discriminate.
  - vm_compute. reflexivity.
  - vm_compute. reflexivity.
Defined.

Lemma freqMap_first_entry_unreachable_binary64_witness :
  exists idx out,
    bin_indices log_not_called [2%float; 1%float; 7%float; 4%float]
      [60; 62; 64; 67]%Z false = Ok idx
    /\ idx = map (fun v => searchsorted_right [1%float; 4%float; 7%float]
                             (key log_not_called false v))
               [2%float; 1%float; 7%float; 4%float]
    /\ Forall (fun i => 1 <= i < Z.of_nat (length [60; 62; 64; 67]%Z))%Z idx
    /\ freqMap log_not_called [2%float; 1%float; 7%float; 4%float]
         [60; 62; 64; 67]%Z false false 0 = Ok out
    /\ Forall2 (fun i p => entry [60; 62; 64; 67]%Z i = Some p) idx out
    /\ (exists first rest,
          [1%float; 4%float; 7%float] = first :: rest
          /\ (first =? key log_not_called false
                         (series_min [2%float; 1%float; 7%float; 4%float]))%float
             = true)
    /\ (NoDup [60; 62; 64; 67]%Z ->
        forall p, nth_error [60; 62; 64; 67]%Z 0 = Some p -> ~ In p out).
Proof.
  apply (@freqMap_first_entry_unreachable_binary64 Z log_not_called
           [2%float; 1%float; 7%float; 4%float] [60; 62; 64; 67]%Z false false 0%Z
           [1%float; 4%float; 7%float]).
  - discriminate.
  - discriminate.
  - simpl. lia.
  - vm_compute. reflexivity.
  - repeat constructor.
  - vm_compute. reflexivity.
Defined.

Lemma freqMap_order_preserving_binary64_witness :
  exists idx out,
    bin_indices log_not_called [4%float; 1%float; 7%float; 2%float]
      [60; 62; 64; 67]%Z false = Ok idx
    /\ freqMap log_not_called [4%float; 1%float; 7%float; 2%float]
         [60; 62; 64; 67]%Z false false 0 = Ok out
    /\ Forall2 (fun i p => entry [60; 62; 64; 67]%Z i = Some p) idx out
    /\ forall i j v v' a b,
         nth_error [4%float; 1%float; 7%float; 2%float] i = Some v ->
         nth_error [4%float; 1%float; 7%float; 2%float] j = Some v' ->
         (v <=? v')%float = true ->
         nth_error idx i = Some a -> nth_error idx j = Some b ->
         (a <= b)%Z.
Proof.
  apply (@freqMap_order_preserving_binary64 Z log_not_called
           [4%float; 1%float; 7%float; 2%float] [60; 62; 64; 67]%Z false false 0%Z
           [1%float; 4%float; 7%float]).
  - discriminate.
  - discriminate.
  - discriminate.
  - vm_compute. reflexivity.
  - vm_compute. reflexivity.
Defined.

Lemma freqMap_maximum_last_binary64_witness :
  exists idx out,
    bin_indices log_not_called [4%float; 1%float; 7%float; 2%float]
      [60; 62; 64; 67]%Z false = Ok idx
    /\ freqMap log_not_called [4%float; 1%float; 7%float; 2%float]
         [60; 62; 64; 67]%Z false false 0 = Ok out
    /\ Forall2 (fun i p => entry [60; 62; 64; 67]%Z i = Some p) idx out
    /\ forall i v,
         nth_error [4%float; 1%float; 7%float; 2%float] i = Some v ->
         (series_max [4%float; 1%float; 7%float; 2%float] <=? v)%float = true ->
         nth_error idx i = Some (Z.of_nat (length [60; 62; 64; 67]%Z - 1))
         /\ nth_error out i
            = nth_error [60; 62; 64; 67]%Z (length [60; 62; 64; 67]%Z - 1).
Proof.
  apply (@freqMap_maximum_last_binary64 Z log_not_called
           [4%float; 1%float; 7%float; 2%float] [60; 62; 64; 67]%Z false false 0%Z
           [1%float; 4%float; 7%float]).
  - discriminate.
  - discriminate.
  - simpl. lia.
  - vm_compute. reflexivity.
  - repeat constructor.
  - vm_compute. reflexivity.
Defined.

Lemma freqMap_decreasing_edges_binary64_witness :
  exists idx out,
    bin_indices log_not_called [(-0x1p+1023)%float; 0x1p+1023%float]
      [60; 64; 67]%Z false = Ok idx
    /\ idx = map (fun v => Z.of_nat (length [nan; 0x1p+1023%float])
                           - searchsorted_right (rev [nan; 0x1p+1023%float]) v)%Z
               [(-0x1p+1023)%float; 0x1p+1023%float]
    /\ nonincreasing idx
    /\ freqMap log_not_called [(-0x1p+1023)%float; 0x1p+1023%float]
         [60; 64; 67]%Z false false 0 = Ok out
    /\ Forall2 (fun i p => entry [60; 64; 67]%Z i = Some p) idx out.
Proof.
  apply (@freqMap_decreasing_edges_binary64 Z log_not_called
           [(-0x1p+1023)%float; 0x1p+1023%float] [60; 64; 67]%Z false 0%Z
           [nan; 0x1p+1023%float]).
  - vm_compute. auto.
  - discriminate.
  - vm_compute. reflexivity.
  - vm_compute. reflexivity.
Defined.


End B64Facts.

(** * Instances *)

Lemma make_track_roundtrip_witness :
  exists track,
    make_track Z.eq_dec [60; 60; 64]%Z = Ok track
    /\ expand track = [60; 60; 64]%Z
    /\ total_count track = 3
    /\ length track = 2.
Proof.
  destruct (@make_track_roundtrip Z Z.eq_dec [60; 60; 64]%Z)
    as (track & Hrun & Hexp & Hcnt & Hlen & _).
  - discriminate.
  - exists track. repeat split; assumption.
Defined.

Lemma freqMap_constant_last_witness :
  exists p,
    nth_error [60; 64; 67]%Z 2 = Some p
    /\ bin_indices [F64.Fin 5; F64.Fin 5; F64.Fin 5] [60; 64; 67]%Z true
       = Ok [2; 2; 2]%Z
    /\ freqMap [F64.Fin 5; F64.Fin 5; F64.Fin 5] [60; 64; 67]%Z true false 0
       = Ok [p; p; p].
Proof.
  apply (@freqMap_constant_last Z [F64.Fin 5; F64.Fin 5; F64.Fin 5]
           [60; 64; 67]%Z true false 0%Z 5%R).
  - discriminate.
  - repeat constructor.
  - intros _. lra.
  - discriminate.
Defined.

Lemma freqMap_log_nonpositive_witness :
  ~ F64.finite (F64.log (F64.Fin 0))
  /\ exists out,
       freqMap [F64.Fin 0; F64.Fin 1; F64.Fin 2] [60; 64; 67]%Z true false 0 = Ok out
       /\ length out = 3
       /\ Forall (fun p => In p [60; 64; 67]%Z) out.
Proof.
  apply (@freqMap_log_nonpositive Z [F64.Fin 0; F64.Fin 1; F64.Fin 2]
           [60; 64; 67]%Z false 0%Z 0%R).
  - left. reflexivity.
  - lra.
  - discriminate.
Defined.

(** * Further properties of the quantizer *)

(** ** Degenerate scales and arbitrary series *)

(** A scale of one entry: [linspace] is asked for no edge at all, every
    sample gets index [0], and the output repeats the entry, whatever the
    series holds and in either mode. *)
Theorem freqMap_single_entry (A : Type) (data : list F64.t) (p : A)
    (log inv : bool) (offset : Z) :
  freqMap data [p] log inv offset = Ok (repeat p (length data)).
Proof.
  assert (Hb : bin_indices data [p] log = Ok (map (fun _ => 0%Z) data)).
  { unfold bin_indices. cbn [length Z.of_nat Z.sub Z.add Z.opp Z.pos_sub].
    assert (Hl : forall start stop, linspace start stop 0 = Ok []) by reflexivity.
    destruct log; rewrite Hl; cbn [bind]; unfold digitize; cbn;
      rewrite ?map_map; reflexivity. }
  unfold freqMap. rewrite Hb. cbn [bind].
  clear Hb. induction data as [|x data IH]; [reflexivity|].
  cbn [map mapM length repeat]. rewrite IH. reflexivity.
Qed.


(** ** Inverted voices *)




(** ** Change of order *)


(** * Further properties of the run encoder *)

Section MoreRunEncoderFacts.

Variable A : Type.
Variable eq_dec : forall x y : A, {x = y} + {x <> y}.

Lemma runs_maximal_bump (before : list (A * nat)) (p : A) (c d : nat) :
  1 <= d ->
  runs_maximal (before ++ [(p, c)]) -> runs_maximal (before ++ [(p, d)]).
Proof.
  intros Hd. induction before as [|r before IH]; cbn [app runs_maximal].
  - cbn [snd]. tauto.
  - intros (Hc & Hnext & Hrest). split; [exact Hc|]. split; [|now apply IH].
    destruct before; exact Hnext.
Qed.

Lemma runs_maximal_snoc (before : list (A * nat)) (p q : A) (c : nat) :
  q <> p ->
  runs_maximal (before ++ [(p, c)]) ->
  runs_maximal ((before ++ [(p, c)]) ++ [(q, 1)]).
Proof.
  intros Hq. induction before as [|r before IH]; cbn [app runs_maximal].
  - cbn [fst snd]. intros (Hc & _ & _). repeat split; auto.
  - intros (Hc & Hnext & Hrest). split; [exact Hc|]. split; [|now apply IH].
    destruct before; exact Hnext.
Qed.

Lemma track_loop_maximal (notes : list A) :
  forall (before : list (A * nat)) (p : A) (c : nat) (track : list (A * nat)),
    runs_maximal (before ++ [(p, c)]) ->
    track_loop eq_dec (before ++ [(p, c)]) notes = Ok track ->
    runs_maximal track.
Proof.
  induction notes as [|note rest IH]; intros before p c track Hmax Hrun.
  - injection Hrun as <-. exact Hmax.
  - cbn [track_loop] in Hrun. unfold track_step in Hrun.
    rewrite split_last_app in Hrun.
    destruct (eq_dec note p) as [->|Hne]; cbn [bind] in Hrun.
    + apply (IH before p (c + 1) track); [|exact Hrun].
      apply (@runs_maximal_bump before p c (c + 1)); [lia | exact Hmax].
    + apply (IH (before ++ [(p, c)]) note 1 track); [|exact Hrun].
      now apply runs_maximal_snoc.
Qed.

(** The runs that [make_track] returns are maximal: every count is at
    least one and two neighbouring runs never carry the same pitch. *)
Theorem make_track_runs_maximal (note_list : list A) (track : list (A * nat)) :
  make_track eq_dec note_list = Ok track -> runs_maximal track.
Proof.
  destruct note_list as [|first rest]; [discriminate|].
  unfold make_track. cbn [getitem length bind skipn]. simpl.
  apply (@track_loop_maximal rest [] first 1 track).
  cbn. repeat split; lia.
Qed.

Lemma track_loop_repeat (p : A) (k : nat) :
  forall (before : list (A * nat)) (c : nat) (notes : list A),
    track_loop eq_dec (before ++ [(p, c)]) (repeat p k ++ notes)
    = track_loop eq_dec (before ++ [(p, c + k)]) notes.
Proof.
  induction k as [|k IH]; intros before c notes.
  - now rewrite Nat.add_0_r.
  - cbn [repeat app track_loop]. unfold track_step. rewrite split_last_app.
    destruct (eq_dec p p) as [_|Hne]; [|congruence]. cbn [bind].
    rewrite IH. do 4 f_equal. lia.
Qed.

Lemma track_loop_expand (rest : list (A * nat)) :
  forall (before : list (A * nat)) (p : A) (c : nat),
    runs_maximal ((p, c) :: rest) ->
    track_loop eq_dec (before ++ [(p, c)]) (expand rest)
    = Ok (before ++ (p, c) :: rest).
Proof.
  induction rest as [|[q d] rest IH]; intros before p c Hmax.
  - reflexivity.
  - destruct Hmax as (_ & Hpq & Hmax). cbn [fst] in Hpq.
    pose proof Hmax as (Hd & _ & _). cbn [snd] in Hd.
    destruct d as [|d]; [lia|].
    cbn [expand repeat app track_loop]. unfold track_step. rewrite split_last_app.
    destruct (eq_dec q p) as [->|_]; [congruence|]. cbn [bind].
    rewrite track_loop_repeat. change (1 + d) with (S d).
    rewrite (IH (before ++ [(p, c)]) q (S d) Hmax).
    now rewrite <- app_assoc.
Qed.

(** The other way round: encoding the expansion of a sequence of maximal
    runs gives these runs back. *)
Theorem make_track_expand (track : list (A * nat)) :
  track <> [] ->
  runs_maximal track ->
  make_track eq_dec (expand track) = Ok track.
Proof.
  destruct track as [|[p c] rest]; [congruence|]. intros _ Hmax.
  pose proof Hmax as (Hc & _ & _). cbn [snd] in Hc.
  destruct c as [|c]; [lia|].
  unfold make_track. cbn [expand repeat app getitem length bind skipn]. simpl.
  pose proof (track_loop_repeat p c [] 1 (expand rest)) as Hrep.
  cbn [app] in Hrep. rewrite Hrep. change (1 + c) with (S c).
  exact (@track_loop_expand rest [] p (S c) Hmax).
Qed.

(** [make_track] rejects the empty list, and only the empty list. *)
Lemma make_track_raises_iff_empty (note_list : list A) :
  make_track eq_dec note_list = Raise IndexError <-> note_list = [].
Proof.
  split.
  - intros H. destruct note_list as [|first rest]; [reflexivity|].
    assert (Hne : first :: rest <> []) by discriminate.
    destruct (track_loop_spec eq_dec rest [] first 1) as (t & Hrun & _).
    cbn [app] in Hrun. unfold make_track in H. cbn [getitem length bind skipn] in H. simpl in H.
    rewrite Hrun in H. discriminate.
  - intros ->. reflexivity.
Qed.

End MoreRunEncoderFacts.

(** * The three voices *)

Section VoiceFacts.

Variable A : Type.
Variable eq_dec : forall x y : A, {x = y} + {x <> y}.

Lemma make_track_error (note_list : list A) (e : exn) :
  make_track eq_dec note_list = Raise e -> e = IndexError /\ note_list = [].
Proof.
  destruct note_list as [|first rest].
  - intros H. injection H as <-. auto.
  - destruct (track_loop_spec eq_dec rest [] first 1) as (t & Hrun & _).
    cbn [app] in Hrun. unfold make_track. cbn [getitem length bind skipn]. simpl.
    rewrite Hrun. discriminate.
Qed.

Lemma rev_not_nil (freq : list A) : freq <> [] -> rev freq <> [].
Proof.
  intros Hfreq H. apply Hfreq. apply (f_equal (@length A)) in H.
  rewrite length_rev in H. now destruct freq.
Qed.

Lemma inverted_not_nil (inverted : bool) (freq : list A) :
  freq <> [] -> (if inverted then rev freq else freq) <> [].
Proof. destruct inverted; [apply rev_not_nil | auto]. Qed.

(** An empty range of dates: as soon as one of the three series is empty
    the callback produces no voice at all; [make_track] raises
    [IndexError] on the empty quantized sequence. *)
Theorem generate_midi_voices_empty_series (data1 data2 data3 : list F64.t)
    (freq1 freq2 freq3 : list A) (voice2_inv voice3_inv : bool)
    (beat_length : PrimFloat.float) :
  freq1 <> [] -> freq2 <> [] -> freq3 <> [] ->
  data1 = [] \/ data2 = [] \/ data3 = [] ->
  generate_midi_voices eq_dec data1 data2 data3 freq1 freq2 freq3
    voice2_inv voice3_inv beat_length = Raise IndexError.
Proof.
  intros Hf1 Hf2 Hf3 Hempty.
  destruct (@freqMap_total A data1 freq1 true false 0%Z Hf1) as (g1 & fm1 & _ & Hm1 & Hal1 & _).
  destruct (@freqMap_total A data2 _ true false 0%Z (@inverted_not_nil voice2_inv freq2 Hf2))
    as (g2 & fm2 & _ & Hm2 & Hal2 & _).
  destruct (@freqMap_total A data3 _ true false 0%Z (@inverted_not_nil voice3_inv freq3 Hf3))
    as (g3 & fm3 & _ & Hm3 & Hal3 & _).
  apply Forall2_same_length in Hal1, Hal2, Hal3. rewrite length_map in Hal1, Hal2, Hal3.
  unfold generate_midi_voices. cbv zeta.
  rewrite Hm1. cbn [bind]. rewrite Hm2. cbn [bind]. rewrite Hm3. cbn [bind].
  destruct (make_track eq_dec fm1) as [t1|e] eqn:Ht1; cbn [bind];
    [|apply make_track_error in Ht1; destruct Ht1 as [-> _]; reflexivity].
  destruct (make_track eq_dec fm2) as [t2|e] eqn:Ht2; cbn [bind];
    [|apply make_track_error in Ht2; destruct Ht2 as [-> _]; reflexivity].
  destruct (make_track eq_dec fm3) as [t3|e] eqn:Ht3; cbn [bind];
    [|apply make_track_error in Ht3; destruct Ht3 as [-> _]; reflexivity].
  exfalso.
  destruct Hempty as [-> | [-> | ->]].
  - destruct fm1; [discriminate Ht1 | discriminate Hal1].
  - destruct fm2; [discriminate Ht2 | discriminate Hal2].
  - destruct fm3; [discriminate Ht3 | discriminate Hal3].
Qed.

Lemma freqMap_scale_not_empty (data : list F64.t) (freq : list A)
    (log inv : bool) (offset : Z) (out : list A) :
  freqMap data freq log inv offset = Ok out ->
  freq <> [] /\ length out = length data.
Proof.
  intros H.
  assert (Hfreq : freq <> []).
  { intros ->. unfold freqMap, bin_indices in H. cbn [length Z.of_nat] in H.
    destruct log; rewrite linspace_negative in H by lia; discriminate. }
  split; [exact Hfreq|].
  destruct (@freqMap_total A data freq log inv offset Hfreq) as (g & out' & _ & Hf & Hal & _).
  rewrite Hf in H. injection H as <-.
  rewrite (Forall2_same_length Hal). apply length_map.
Qed.

(** One voice that is produced: its series is not empty, it has one note
    per maximal constant stretch of its quantized sequence, the first
    note starts at [0], every note starts where the one before it ends,
    and the last one ends at the value of [start_time] when the loop is
    left. *)
Lemma voice_result (beat_length : PrimFloat.float) (data : list F64.t)
    (freq fm : list A) (track : list (A * nat)) (notes : list (Note A)) :
  freqMap data freq true false 0 = Ok fm ->
  make_track eq_dec fm = Ok track ->
  track_notes beat_length track = Ok notes ->
  length fm = length data
  /\ data <> []
  /\ length notes = stretches eq_dec fm
  /\ (exists final,
        nth_error notes (length notes - 1) = Some final
        /\ end_ final = final_time beat_length PrimFloat.zero track)
  /\ (forall note, nth_error notes 0 = Some note -> start note = PrimFloat.zero)
  /\ (forall i a b,
        nth_error notes i = Some a -> nth_error notes (S i) = Some b ->
        start b = end_ a).
Proof.
  intros Hf Ht Hn.
  destruct (@freqMap_scale_not_empty _ _ _ _ _ _ Hf) as [_ Hlen].
  destruct fm as [|first rest]; [discriminate Ht|].
  destruct (track_loop_spec eq_dec rest [] first 1) as (track' & Hrun & _ & _ & Hlt).
  cbn [app] in Hrun. unfold make_track in Ht.
  cbn [getitem length bind skipn] in Ht. simpl in Ht.
  rewrite Hrun in Ht. injection Ht as <-. cbn [length] in Hlt.
  destruct (@AssemblerFacts.note_loop_spec A beat_length track' PrimFloat.zero notes Hn)
    as (Hnl & Hfirst & _ & Hcont & Hlast).
  split; [exact Hlen|].
  split. { intros ->. discriminate Hlen. }
  split. { rewrite Hnl, Hlt. reflexivity. }
  split.
  { destruct (nth_error notes (length notes - 1)) as [final|] eqn:Hfin.
    - exists final. split; [reflexivity|]. apply Hlast. rewrite <- Hnl. exact Hfin.
    - apply nth_error_None in Hfin. lia. }
  split; [exact Hfirst | exact Hcont].
Qed.

(** Whenever the three voices are produced: none of the three series is
    empty; the first quantized sequence, whose length the success message
    reports as the number of days, has one pitch per sample; every voice
    has one note per maximal constant stretch of its quantized sequence,
    starts at [0] and is contiguous; and the time the success message
    reports is the end of the last note of the third voice. *)
Lemma generate_midi_voices_result (data1 data2 data3 : list F64.t)
    (freq1 freq2 freq3 : list A) (voice2_inv voice3_inv : bool)
    (beat_length : PrimFloat.float) (v : voices A) :
  generate_midi_voices eq_dec data1 data2 data3 freq1 freq2 freq3
    voice2_inv voice3_inv beat_length = Ok v ->
  freqMap data1 freq1 true false 0 = Ok (voice1_fm v)
  /\ length (voice1_fm v) = length data1
  /\ data1 <> [] /\ data2 <> [] /\ data3 <> []
  /\ length (notes1 v) = stretches eq_dec (voice1_fm v)
  /\ (exists voice2_fm voice3_fm,
        freqMap data2 (if voice2_inv then rev freq2 else freq2) true false 0
          = Ok voice2_fm
        /\ freqMap data3 (if voice3_inv then rev freq3 else freq3) true false 0
          = Ok voice3_fm
        /\ length (notes2 v) = stretches eq_dec voice2_fm
        /\ length (notes3 v) = stretches eq_dec voice3_fm)
  /\ (exists final,
        nth_error (notes3 v) (length (notes3 v) - 1) = Some final
        /\ end_ final = seconds v)
  /\ Forall
       (fun notes =>
          (forall note, nth_error notes 0 = Some note -> start note = PrimFloat.zero)
          /\ (forall i a b,
                nth_error notes i = Some a -> nth_error notes (S i) = Some b ->
                start b = end_ a))
       [notes1 v; notes2 v; notes3 v].
Proof.
  unfold generate_midi_voices. cbv zeta. intros H.
  destruct (freqMap data1 freq1 true false 0) as [fm1|] eqn:Hf1; [|discriminate].
  cbn [bind] in H.
  destruct (freqMap data2 _ true false 0) as [fm2|] eqn:Hf2; [|discriminate].
  cbn [bind] in H.
  destruct (freqMap data3 _ true false 0) as [fm3|] eqn:Hf3; [|discriminate].
  cbn [bind] in H.
  destruct (make_track eq_dec fm1) as [t1|] eqn:Ht1; [|discriminate]. cbn [bind] in H.
  destruct (make_track eq_dec fm2) as [t2|] eqn:Ht2; [|discriminate]. cbn [bind] in H.
  destruct (make_track eq_dec fm3) as [t3|] eqn:Ht3; [|discriminate]. cbn [bind] in H.
  destruct (track_notes beat_length t1) as [n1|] eqn:Hn1; [|discriminate]. cbn [bind] in H.
  destruct (track_notes beat_length t2) as [n2|] eqn:Hn2; [|discriminate]. cbn [bind] in H.
  destruct (track_notes beat_length t3) as [n3|] eqn:Hn3; [|discriminate]. cbn [bind] in H.
  injection H as <-. cbn [voice1_fm notes1 notes2 notes3 seconds].
  destruct (@voice_result _ _ _ _ _ _ Hf1 Ht1 Hn1) as (Hl1 & Hd1 & Hs1 & _ & Hz1 & Hc1).
  destruct (@voice_result _ _ _ _ _ _ Hf2 Ht2 Hn2) as (_ & Hd2 & Hs2 & _ & Hz2 & Hc2).
  destruct (@voice_result _ _ _ _ _ _ Hf3 Ht3 Hn3) as (_ & Hd3 & Hs3 & Hfin & Hz3 & Hc3).
  split; [reflexivity|]. split; [exact Hl1|].
  split; [exact Hd1|]. split; [exact Hd2|]. split; [exact Hd3|].
  split; [exact Hs1|].
  split. { exists fm2, fm3. auto. }
  split; [exact Hfin|].
  repeat constructor; assumption.
Qed.

(** One voice on a series and a scale that are not empty, for a unit
    duration that is not negative: nothing raises. *)
Lemma voice_produced (beat_length : PrimFloat.float) (data : list F64.t)
    (freq : list A) :
  data <> [] -> freq <> [] ->
  PrimFloat.ltb beat_length PrimFloat.zero = false ->
  exists fm track notes,
    freqMap data freq true false 0 = Ok fm
    /\ make_track eq_dec fm = Ok track
    /\ track_notes beat_length track = Ok notes.
Proof.
  intros Hdata Hfreq Hb.
  destruct (@freqMap_total A data freq true false 0%Z Hfreq) as (g & fm & _ & Hf & Hal & _).
  assert (Hlen : length fm = length data).
  { rewrite (Forall2_same_length Hal). apply length_map. }
  destruct fm as [|first rest].
  { destruct data; [congruence | discriminate]. }
  destruct (track_loop_spec eq_dec rest [] first 1) as (track & Hrun & _).
  cbn [app] in Hrun.
  assert (H0 : PrimFloat.ltb PrimFloat.zero PrimFloat.zero = false) by reflexivity.
  destruct (@AssemblerFacts.note_loop_total A beat_length track Hb PrimFloat.zero H0)
    as (notes & Hn & _).
  exists (first :: rest), track, notes.
  split; [exact Hf|]. split; [|exact Hn].
  unfold make_track. cbn [getitem length bind skipn]. simpl. exact Hrun.
Qed.

(** Three series and three scales that are not empty, a unit duration
    that is not negative: the callback produces its three voices.  The
    first quantized sequence, whose length the success message reports as
    the number of days, has one pitch per sample; every voice has one note
    per maximal constant stretch of its quantized sequence, starts at [0]
    and is contiguous; and the time the success message reports is the end
    of the last note of the third voice. *)
Theorem generate_midi_voices_produced (data1 data2 data3 : list F64.t)
    (freq1 freq2 freq3 : list A) (voice2_inv voice3_inv : bool)
    (beat_length : PrimFloat.float) :
  data1 <> [] -> data2 <> [] -> data3 <> [] ->
  freq1 <> [] -> freq2 <> [] -> freq3 <> [] ->
  PrimFloat.ltb beat_length PrimFloat.zero = false ->
  exists v,
    generate_midi_voices eq_dec data1 data2 data3 freq1 freq2 freq3
      voice2_inv voice3_inv beat_length = Ok v
    /\ freqMap data1 freq1 true false 0 = Ok (voice1_fm v)
    /\ length (voice1_fm v) = length data1
    /\ length (notes1 v) = stretches eq_dec (voice1_fm v)
    /\ (exists voice2_fm voice3_fm,
          freqMap data2 (if voice2_inv then rev freq2 else freq2) true false 0
            = Ok voice2_fm
          /\ freqMap data3 (if voice3_inv then rev freq3 else freq3) true false 0
            = Ok voice3_fm
          /\ length (notes2 v) = stretches eq_dec voice2_fm
          /\ length (notes3 v) = stretches eq_dec voice3_fm)
    /\ (exists final,
          nth_error (notes3 v) (length (notes3 v) - 1) = Some final
          /\ end_ final = seconds v)
    /\ Forall
         (fun notes =>
            (forall note, nth_error notes 0 = Some note -> start note = PrimFloat.zero)
            /\ (forall i a b,
                  nth_error notes i = Some a -> nth_error notes (S i) = Some b ->
                  start b = end_ a))
         [notes1 v; notes2 v; notes3 v].
Proof.
  intros Hd1 Hd2 Hd3 Hf1 Hf2 Hf3 Hb.
  destruct (@voice_produced beat_length data1 freq1 Hd1 Hf1 Hb)
    as (fm1 & t1 & n1 & Hm1 & Ht1 & Hn1).
  destruct (@voice_produced beat_length data2 _ Hd2
              (@inverted_not_nil voice2_inv freq2 Hf2) Hb)
    as (fm2 & t2 & n2 & Hm2 & Ht2 & Hn2).
  destruct (@voice_produced beat_length data3 _ Hd3
              (@inverted_not_nil voice3_inv freq3 Hf3) Hb)
    as (fm3 & t3 & n3 & Hm3 & Ht3 & Hn3).
  assert (Hrun : generate_midi_voices eq_dec data1 data2 data3 freq1 freq2 freq3
                   voice2_inv voice3_inv beat_length
                 = Ok (mkVoices fm1 n1 n2 n3 (final_time beat_length PrimFloat.zero t3))).
  { unfold generate_midi_voices. cbv zeta.
    rewrite Hm1. cbn [bind]. rewrite Hm2. cbn [bind]. rewrite Hm3. cbn [bind].
    rewrite Ht1. cbn [bind]. rewrite Ht2. cbn [bind]. rewrite Ht3. cbn [bind].
    rewrite Hn1. cbn [bind]. rewrite Hn2. cbn [bind]. rewrite Hn3. cbn [bind].
    reflexivity. }
  eexists. split; [exact Hrun|].
  destruct (generate_midi_voices_result _ _ _ _ _ _ _ _ _ Hrun)
    as (R1 & R2 & _ & _ & _ & R3 & R4 & R5 & R6).
  split; [exact R1|]. split; [exact R2|]. split; [exact R3|].
  split; [exact R4|]. split; [exact R5 | exact R6].
Qed.

End VoiceFacts.

(** * The gauge map *)

Module GaugeMapFacts.

Import String.
Import GaugeMap.

Section MapFacts.

Variable valid_gauges : list string.
Variable gauge_locations : list (string * (F64.t * F64.t * string)).

Lemma location_of_some (gauge : string) (location : F64.t * F64.t * string) :
  dict_get gauge_locations gauge = Some location ->
  location_of gauge_locations gauge = location.
Proof. unfold location_of. now intros ->. Qed.

(** The loop appends one marker per gauge that has a location and leaves
    what was there before untouched. *)
Lemma fold_marker_step (sel : list string) (gs : list string) :
  forall m,
    fold_left (marker_step gauge_locations sel) gs m
    = mkMarkers
        (lats m ++ map (fun g => fst (fst (location_of gauge_locations g))) (located gs gauge_locations))
        (lons m ++ map (fun g => snd (fst (location_of gauge_locations g))) (located gs gauge_locations))
        (names m ++ map (fun g => (g ++ "<br>" ++ snd (location_of gauge_locations g))%string)
                      (located gs gauge_locations))
        (colors m ++ map (colour_of sel) (located gs gauge_locations))
        (sizes m ++ map (size_of sel) (located gs gauge_locations)).
Proof.
  induction gs as [|gauge gs IH]; intros m.
  - cbn. rewrite !app_nil_r. now destruct m.
  - cbn [fold_left]. rewrite IH. clear IH.
    assert (Hloc : located (gauge :: gs) gauge_locations
                   = match dict_get gauge_locations gauge with
                     | Some _ => gauge :: located gs gauge_locations
                     | None => located gs gauge_locations
                     end).
    { unfold located. cbn [filter]. now destruct (dict_get gauge_locations gauge). }
    rewrite Hloc. unfold marker_step.
    pose proof (@location_of_some gauge) as Hl.
    destruct (dict_get gauge_locations gauge) as [[[lat lon] name]|]; [|reflexivity].
    cbn [map]. rewrite (Hl _ eq_refl). clear Hl.
    assert (Hc : colour_of sel gauge
                 = if selected_in gauge sel then "#00D856"%string else "#1E90FF"%string)
      by reflexivity.
    assert (Hs : size_of sel gauge = if selected_in gauge sel then 15%Z else 10%Z)
      by reflexivity.
    rewrite Hc, Hs.
    destruct (selected_in gauge sel); cbn [lats lons names colors sizes fst snd];
      now rewrite <- !app_assoc.
Qed.

(** The figure shows one marker per valid gauge that has a location, in
    the order of [valid_gauges]; a gauge without a location is left out
    and raises nothing.  The five lists are aligned: marker [k] carries
    the coordinates and the label [gauge<br>name] of the [k]-th located
    gauge, and is green with size [15] when that gauge is selected, blue
    with size [10] otherwise. *)
Theorem create_gauge_map_markers (selected_gauges : option (list string)) :
  let sel := match selected_gauges with Some l => l | None => [] end in
  let shown := located valid_gauges gauge_locations in
  let m := create_gauge_map valid_gauges gauge_locations selected_gauges in
  (forall gauge, In gauge shown <->
                 In gauge valid_gauges /\ dict_get gauge_locations gauge <> None)
  /\ lats m = map (fun g => fst (fst (location_of gauge_locations g))) shown
  /\ lons m = map (fun g => snd (fst (location_of gauge_locations g))) shown
  /\ names m = map (fun g => (g ++ "<br>" ++ snd (location_of gauge_locations g))%string) shown
  /\ colors m = map (colour_of sel) shown
  /\ sizes m = map (size_of sel) shown.
Proof.
  intros sel shown m. split.
  - intros gauge. unfold shown, located. rewrite filter_In.
    destruct (dict_get gauge_locations gauge); intuition congruence.
  - unfold m, create_gauge_map. fold sel. rewrite fold_marker_step.
    cbn [lats lons names colors sizes app]. repeat split; reflexivity.
Qed.

Lemma selected_in_spec (gauge : string) (sel : list string) :
  selected_in gauge sel = true <-> In gauge sel.
Proof.
  unfold selected_in. rewrite existsb_exists. split.
  - intros (x & Hx & He). apply String.eqb_eq in He. now subst x.
  - intros H. exists gauge. split; [exact H | apply String.eqb_refl].
Qed.

Lemma not_none_In (gs : list (option string)) (gauge : string) :
  In gauge (not_none gs) <-> In (Some gauge) gs.
Proof.
  unfold not_none. rewrite in_flat_map. split.
  - intros ([s|] & Hin & Hs); [|contradiction].
    destruct Hs as [-> | []]. exact Hin.
  - intros H. exists (Some gauge). split; [exact H | now left].
Qed.

(** Selecting gauges changes nothing but colours and sizes: [update_map]
    shows the same markers, with the same coordinates and labels, as the
    map without a selection; a marker is green with size [15] exactly when
    its gauge is one of the three values chosen, and unset values ([None])
    select nothing. *)
Theorem update_map_selection (gauge1 gauge2 gauge3 : option string) :
  let m := update_map valid_gauges gauge_locations gauge1 gauge2 gauge3 in
  let m0 := create_gauge_map valid_gauges gauge_locations None in
  lats m = lats m0 /\ lons m = lons m0 /\ names m = names m0
  /\ forall k gauge,
       nth_error (located valid_gauges gauge_locations) k = Some gauge ->
       (nth_error (colors m) k = Some "#00D856"%string
        /\ nth_error (sizes m) k = Some 15%Z
        /\ (gauge1 = Some gauge \/ gauge2 = Some gauge \/ gauge3 = Some gauge))
       \/ (nth_error (colors m) k = Some "#1E90FF"%string
           /\ nth_error (sizes m) k = Some 10%Z
           /\ gauge1 <> Some gauge /\ gauge2 <> Some gauge /\ gauge3 <> Some gauge).
Proof.
  intros m m0. unfold m, m0, update_map, create_gauge_map.
  rewrite !fold_marker_step. cbn [lats lons names colors sizes app].
  repeat split.
  intros k gauge Hk. unfold located in Hk.
  rewrite !(map_nth_error _ _ _ Hk). unfold colour_of, size_of.
  destruct (selected_in gauge (not_none [gauge1; gauge2; gauge3])) eqn:Hsel.
  - left. repeat split.
    apply selected_in_spec, not_none_In in Hsel. cbn [In] in Hsel.
    intuition auto.
  - right. repeat split; intros Heq;
      assert (Hin : In gauge (not_none [gauge1; gauge2; gauge3]))
        by (apply not_none_In; rewrite Heq; cbn [In]; auto);
      apply selected_in_spec in Hin; congruence.
Qed.

End MapFacts.

End GaugeMapFacts.

(** * Instances of the further properties *)




Lemma make_track_runs_maximal_witness :
  runs_maximal [(60%Z, 2); (64%Z, 1)].
Proof.
  apply (@make_track_runs_maximal Z Z.eq_dec [60; 60; 64]%Z [(60%Z, 2); (64%Z, 1)]).
  reflexivity.
Defined.

Lemma make_track_expand_witness :
  make_track Z.eq_dec (expand [(60%Z, 2); (64%Z, 1)]) = Ok [(60%Z, 2); (64%Z, 1)].
Proof.
  apply (@make_track_expand Z Z.eq_dec [(60%Z, 2); (64%Z, 1)]).
  - discriminate.
  - simpl. repeat split; try lia; discriminate.
Defined.

Lemma generate_midi_voices_empty_series_witness :
  generate_midi_voices Z.eq_dec
    [F64.Fin 1; F64.Fin 2] [] [F64.Fin 5]
    [60; 64; 67]%Z [48; 50; 52]%Z [36; 38]%Z true false PrimFloat.one
  = Raise IndexError.
Proof.
  apply (@generate_midi_voices_empty_series Z Z.eq_dec
           [F64.Fin 1; F64.Fin 2] [] [F64.Fin 5]
           [60; 64; 67]%Z [48; 50; 52]%Z [36; 38]%Z true false PrimFloat.one);
    try discriminate.
  right. left. reflexivity.
Defined.

Lemma generate_midi_voices_produced_witness :
  exists v,
    generate_midi_voices Z.eq_dec
      [F64.Fin 1; F64.Fin 2; F64.Fin 4] [F64.Fin 1; F64.Fin 2; F64.Fin 4]
      [F64.Fin 1; F64.Fin 2; F64.Fin 4]
      [60; 64; 67]%Z [60; 64; 67]%Z [60; 64; 67]%Z true false PrimFloat.one = Ok v
    /\ voice1_fm v = [64; 64; 67]%Z
    /\ length (notes1 v) = 2
    /\ exists final,
         nth_error (notes3 v) (length (notes3 v) - 1) = Some final
         /\ end_ final = seconds v.
Proof.
  destruct (@generate_midi_voices_produced Z Z.eq_dec
              [F64.Fin 1; F64.Fin 2; F64.Fin 4] [F64.Fin 1; F64.Fin 2; F64.Fin 4]
              [F64.Fin 1; F64.Fin 2; F64.Fin 4]
              [60; 64; 67]%Z [60; 64; 67]%Z [60; 64; 67]%Z true false PrimFloat.one)
    as (v & Hv & Hfm & _ & Hs & _ & Hfin & _); try discriminate.
  - reflexivity.
  - exists v. rewrite freqMap_small_run in Hfm. injection Hfm as Hfm.
    split; [exact Hv|]. split; [now rewrite <- Hfm|].
    split; [rewrite Hs, <- Hfm; reflexivity | exact Hfin].
Defined.
